(** * iterable-cpp: the iterator adapter and the iteration mixin

    A shallow embedding of
    - [include/iterable/iterator.h]  ([Iterable::Detail::IteratorCore], [Iterable::Iterator]),
    - [include/iterable/iterable.h]  ([Iterable::For]),
    - [include/iterable.h]           (the older class template [Iterable<D>] with its
                                      nested [Iterator<S>]),
    followed by the properties of the specification that were checked against it. *)

From Stdlib Require Import ZArith Lia Bool List.
From stdpp Require Import base option list gmap.
Import ListNotations.

Local Open Scope Z_scope.

(** ** The C++ integer types the headers use

    [int] is 32 bits wide and [std::ptrdiff_t] 64 bits wide (the LP64 and LLP64
    data models); [std::uint64_t] is 64 bits wide everywhere.  A value of one of
    these types is the [Z] it denotes.

    - Conversion to a signed type of a value that does not fit keeps the value
      modulo [2^bits] (C++20 [conv.integral]; what every mainstream compiler
      did before C++20, where the result was implementation-defined).
    - Arithmetic in an unsigned type is arithmetic modulo [2^bits].
    - Arithmetic in a signed type has no result when the mathematical result
      does not fit: the behaviour is undefined ([expr.pre]).  Such an
      operation is [None] below. *)
Module Cxx.

Definition wrap_signed (bits z : Z) : Z :=
  (z + 2 ^ (bits - 1)) mod 2 ^ bits - 2 ^ (bits - 1).

Definition INT_MIN : Z := - 2 ^ 31.
Definition INT_MAX : Z := 2 ^ 31 - 1.
Definition PTRDIFF_MIN : Z := - 2 ^ 63.
Definition PTRDIFF_MAX : Z := 2 ^ 63 - 1.
Definition UINT64_MAX : Z := 2 ^ 64 - 1.

Definition in_int (z : Z) : bool := (INT_MIN <=? z) && (z <=? INT_MAX).
Definition in_ptrdiff (z : Z) : bool := (PTRDIFF_MIN <=? z) && (z <=? PTRDIFF_MAX).
Definition in_uint64 (z : Z) : bool := (0 <=? z) && (z <=? UINT64_MAX).

(** Integral conversions. *)
Definition to_int (z : Z) : Z := wrap_signed 32 z.
Definition to_ptrdiff (z : Z) : Z := wrap_signed 64 z.
Definition to_uint64 (z : Z) : Z := z mod 2 ^ 64.

(** The result of an arithmetic expression of type [int], resp.
    [std::ptrdiff_t], whose mathematical value is [z]. *)
Definition int_expr (z : Z) : option Z := if in_int z then Some z else None.
Definition ptrdiff_expr (z : Z) : option Z := if in_ptrdiff z then Some z else None.

(** Whether the object an expression designates is const-qualified. *)
Inductive cv : Set := Mutable | Const.

Definition is_const (q : cv) : bool :=
  match q with Const => true | Mutable => false end.

#[global] Instance cv_eq_dec : EqDecision cv.
Proof. solve_decision. Defined.

End Cxx.
Import Cxx.

(** ** Host containers and the memory they live in

    The headers are templates over a host class that they never define.  What
    they use of it is an interface: [Length()] (spelled [GetLength()] in the
    older header) and [operator[]] on a mutable and on a constant path.

    An object of the host class is a value of type [H].  [operator[]] returns
    an lvalue: the element it designates is a [slot] of the host object, and
    the call may also change the object (a host that counts accesses, or one
    that creates elements on demand); it has no result ([None]) where the host
    leaves the index undefined.  The mutability of the reference returned
    matches the path it was obtained on, as the specification requires of a
    host.  [read_slot] and [write_slot] are what a load and a store through
    such an lvalue do to the object. *)
Definition slot := Z.

Class Host (H : Type) : Type := {
  Stored : Type;
  Length : H → Z;
  subscript : cv → Z → H → option (slot * H);
  read_slot : slot → H → option Stored;
  write_slot : slot → Stored → H → H;
}.

(** A pointer to a host object: an address, or [nullptr]. *)
Definition addr := positive.
Definition ptr := option addr.
Definition nullptr : ptr := None.

(** An element lvalue: the host object it lives in, the slot, and whether its
    type is const-qualified. *)
Record lvalue : Type := MkLvalue { lv_const : cv; lv_obj : addr; lv_slot : slot }.

#[global] Instance lvalue_eq_dec : EqDecision lvalue.
Proof. solve_decision. Defined.

(** The calls made into host objects, in the order they happen. *)
Inductive call : Type :=
| CallLength (a : addr)
| CallSubscript (a : addr) (q : cv) (k : Z).

(** The state a computation runs in: the host objects by address, and the
    calls made into them so far. *)
Record world (H : Type) : Type := MkWorld { heap : gmap addr H; calls : list call }.
Arguments MkWorld {H} _ _.
Arguments heap {H} _.
Arguments calls {H} _.

(** A computation either completes with a result and a state, or has undefined
    behaviour, or is ill-formed (the translation unit that contains it is
    rejected by the compiler). *)
Inductive outcome (S A : Type) : Type :=
| Done (a : A) (s : S)
| Undefined
| IllFormed.
Arguments Done {S A} _ _.
Arguments Undefined {S A}.
Arguments IllFormed {S A}.

Definition M (H A : Type) : Type := world H → outcome (world H) A.

#[global] Instance M_ret (H : Type) : MRet (M H) :=
  λ A a w, Done a w.
#[global] Instance M_bind (H : Type) : MBind (M H) :=
  λ A B f m w,
    match m w with
    | Done a w' => f a w'
    | Undefined => Undefined
    | IllFormed => IllFormed
    end.

Section HostAccess.
Context {H : Type} `{Host H}.

(** An operation on values alone, which is undefined where it has no result. *)
Definition defined {A : Type} (o : option A) : M H A :=
  λ w, match o with Some a => Done a w | None => Undefined end.

Definition ill_formed {A : Type} : M H A := λ _, IllFormed.

(** The object a pointer or reference designates; dereferencing [nullptr] or
    a pointer to no live object is undefined. *)
Definition object (a : addr) : M H H :=
  λ w, defined (heap w !! a) w.

(** [a->Length()] *)
Definition call_Length (a : addr) : M H Z :=
  λ w, match heap w !! a with
       | Some d => Done (Length d) (MkWorld (heap w) (calls w ++ [CallLength a]))
       | None => Undefined
       end.

(** [a->operator[](k)] on the path of constness [q] *)
Definition call_subscript (q : cv) (a : addr) (k : Z) : M H slot :=
  λ w, match heap w !! a with
       | Some d =>
           match subscript q k d with
           | Some (s, d') =>
               Done s (MkWorld (<[a := d']> (heap w)) (calls w ++ [CallSubscript a q k]))
           | None => Undefined
           end
       | None => Undefined
       end.


(** Reading through an lvalue. *)
Definition load (r : lvalue) : M H Stored :=
  λ w, defined (d ← heap w !! lv_obj r; read_slot (lv_slot r) d) w.


End HostAccess.

(** ** [Iterable::Detail::IteratorCore<D, I>] (iterator.h)

    First the members that work on the position alone, as functions of the
    iterator; then the members that dereference [data_], as computations.  A
    member function that modifies [*this] returns the pair of its C++ result
    and the iterator object afterwards; a prefix operator returns [*this]
    itself, so both components are the updated iterator. *)
Module Detail.

(** [D *data_ = nullptr; int current_ = 0;]
    Of the template argument [D] the record keeps what the members depend on:
    whether the container type is const-qualified ([Iterator<D, T>] against
    [Iterator<const D, T>]).  The CRTP argument [I] is the public [Iterator]
    below, which adds no member. *)
Record IteratorCore (D : cv) : Type := MkCore { data_ : ptr; current_ : Z }.
Arguments MkCore {D} _ _.
Arguments data_ {D} _.
Arguments current_ {D} _.

#[global] Instance IteratorCore_eq_dec (D : cv) : EqDecision (IteratorCore D).
Proof. solve_decision. Defined.

Section Arithmetic.
Context {D : cv}.
Implicit Types i other : IteratorCore D.

(** [IteratorCore() = default] *)
Definition default_ctor : IteratorCore D := MkCore nullptr 0.

(** [IteratorCore(D *data, int current)]: the argument is converted to the
    parameter type [int]. *)
Definition ctor (data : ptr) (current : Z) : IteratorCore D :=
  MkCore data (to_int current).

(** The class invariant of the position: it is an [int]. *)
Definition valid (i : IteratorCore D) : Prop := in_int (current_ i) = true.

(** [current_++] and [current_--] on the [int] member. *)
Definition incr (i : IteratorCore D) : option (IteratorCore D) :=
  c ← int_expr (current_ i + 1); Some (MkCore (data_ i) c).
Definition decr (i : IteratorCore D) : option (IteratorCore D) :=
  c ← int_expr (current_ i - 1); Some (MkCore (data_ i) c).

(** [I &operator++()] *)
Definition op_preinc (i : IteratorCore D) : option (IteratorCore D * IteratorCore D) :=
  i' ← incr i; Some (i', i').

(** [I operator++(int)]: [auto temp = *this; current_++; return temp.Reference();] *)
Definition op_postinc (i : IteratorCore D) : option (IteratorCore D * IteratorCore D) :=
  let temp := i in
  i' ← incr i; Some (temp, i').

(** [I &operator--()] *)
Definition op_predec (i : IteratorCore D) : option (IteratorCore D * IteratorCore D) :=
  i' ← decr i; Some (i', i').

(** [I operator--(int)] *)
Definition op_postdec (i : IteratorCore D) : option (IteratorCore D * IteratorCore D) :=
  let temp := i in
  i' ← decr i; Some (temp, i').

(** Comparison operators: [current_ OP other.current_]. *)
Definition op_eq (i other : IteratorCore D) : bool := current_ i =? current_ other.
Definition op_ne (i other : IteratorCore D) : bool := negb (current_ i =? current_ other).
Definition op_lt (i other : IteratorCore D) : bool := current_ i <? current_ other.
Definition op_gt (i other : IteratorCore D) : bool := current_ i >? current_ other.
Definition op_le (i other : IteratorCore D) : bool := current_ i <=? current_ other.
Definition op_ge (i other : IteratorCore D) : bool := current_ i >=? current_ other.

(** [I operator+(std::ptrdiff_t n) const]: [return I(this->data_, this->current_ + n);]
    The sum is computed in [std::ptrdiff_t] and converted to the [int]
    parameter of the constructor. *)
Definition op_plus (i : IteratorCore D) (n : Z) : option (IteratorCore D) :=
  s ← ptrdiff_expr (current_ i + n); Some (ctor (data_ i) s).

(** [I operator-(std::ptrdiff_t n) const] *)
Definition op_minus (i : IteratorCore D) (n : Z) : option (IteratorCore D) :=
  s ← ptrdiff_expr (current_ i - n); Some (ctor (data_ i) s).

(** [std::ptrdiff_t operator-(const IteratorCore &other) const]:
    [return this->current_ - other.current_;], an [int] subtraction whose
    result is then widened. *)
Definition op_diff (i other : IteratorCore D) : option Z :=
  int_expr (current_ i - current_ other).

(** [I &operator+=(std::ptrdiff_t n)]: [this->current_ += n;] *)
Definition op_plus_assign (i : IteratorCore D) (n : Z)
  : option (IteratorCore D * IteratorCore D) :=
  s ← ptrdiff_expr (current_ i + n);
  let i' := MkCore (data_ i) (to_int s) in Some (i', i').

(** [I &operator-=(std::ptrdiff_t n)] *)
Definition op_minus_assign (i : IteratorCore D) (n : Z)
  : option (IteratorCore D * IteratorCore D) :=
  s ← ptrdiff_expr (current_ i - n);
  let i' := MkCore (data_ i) (to_int s) in Some (i', i').

(** The free [operator+(std::ptrdiff_t n, const IteratorCore<D, I> &i)]:
    [return i + n;] *)
Definition op_plus_left (n : Z) (i : IteratorCore D) : option (IteratorCore D) :=
  op_plus i n.

End Arithmetic.

(** [Detail::HandledReturn<D>]:
    [std::conditional_t<std::is_const_v<D>, const Stored<D>, Stored<D>>];
    [Stored<D>] is a decayed type and carries no qualifier of its own. *)
Definition HandledReturn (D : cv) : cv :=
  if is_const D then Const else Mutable.

Section Access.
Context {H : Type} `{Host H} {D : cv}.
Implicit Types i : IteratorCore D.

(** [HandledReturn<D> &operator*() const]: [return ( *data_)[current_];] *)
Definition op_deref (i : IteratorCore D) : M H lvalue :=
  a ← defined (data_ i);
  s ← call_subscript D a (current_ i);
  mret (MkLvalue (HandledReturn D) a s).

(** [HandledReturn<D> *operator->() const]:
    [return std::addressof(operator*());], the address of that same element. *)
Definition op_arrow (i : IteratorCore D) : M H lvalue :=
  op_deref i.

(** [HandledReturn<D> &operator[](std::ptrdiff_t n) const]: [return *( *this + n);] *)
Definition op_subscript (i : IteratorCore D) (n : Z) : M H lvalue :=
  j ← defined (op_plus i n);
  op_deref j.

(** [ContiguousImpl] (compiled under [ITERABLE_CPP_20], selected by
    [Tag::Contiguous]): [operator Detail::HandledReturn<D> *()], which is
    [return this->operator->();] *)
Definition op_to_pointer (i : IteratorCore D) : M H lvalue :=
  op_arrow i.

End Access.
End Detail.

(** [template <typename D, Tag T = Default> struct Iterator]: it derives from
    the selected implementation, inherits its constructors and adds type
    aliases only. *)
Inductive Tag : Set := Default | Contiguous.
Definition Iterator (D : cv) : Type := Detail.IteratorCore D.


(** ** [Iterable::For<D, T>] (iterable.h)

    [This()] is [static_cast<D *>(this)]: the address [this] of the host
    object.  [if constexpr (HasPubContainer)] selects a branch per host class,
    so the result type of an entry point depends on the class: the iterators of
    the member [data_], or the synthesized [Iterator].

    The type of a public member [data_] is not part of the repository.  What
    the mixin uses of it is its [begin()] and [end()], on a mutable and on a
    constant member; their result is an iterator into the member, which is a
    part of the host object, so it depends on the address and on the state of
    that object. *)
Record PubContainer (H NativeIt : Type) : Type := {
  c_begin : cv → addr → H → NativeIt;
  c_end : cv → addr → H → NativeIt;
}.
Arguments c_begin {H NativeIt} _ _ _ _.
Arguments c_end {H NativeIt} _ _ _ _.

Module For.
Section Mixin.
Context {H : Type} `{Host H} {NativeIt : Type}.

(** The member [data_] of the host class when it declares a public one, which
    is when [HasPubContainerS<D>::Value] is [true]. *)
Variable member_data_ : option (PubContainer H NativeIt).

Definition HasPubContainer : bool :=
  match member_data_ with Some _ => true | None => false end.

(** [auto begin()] *)
Definition begin (this : addr) : M H (NativeIt + Iterator Mutable) :=
  match member_data_ with
  | Some data_ => d ← object this; mret (inl (c_begin data_ Mutable this d))
  | None => mret (inr (Detail.ctor (Some this) 0))
  end.

(** [auto begin() const] *)
Definition begin_const (this : addr) : M H (NativeIt + Iterator Const) :=
  match member_data_ with
  | Some data_ => d ← object this; mret (inl (c_begin data_ Const this d))
  | None => mret (inr (Detail.ctor (Some this) 0))
  end.

(** [auto cbegin() const]: [return begin();] *)
Definition cbegin (this : addr) : M H (NativeIt + Iterator Const) :=
  begin_const this.

(** [auto end()] *)
Definition end_ (this : addr) : M H (NativeIt + Iterator Mutable) :=
  match member_data_ with
  | Some data_ => d ← object this; mret (inl (c_end data_ Mutable this d))
  | None => n ← call_Length this; mret (inr (Detail.ctor (Some this) n))
  end.

(** [auto end() const] *)
Definition end_const (this : addr) : M H (NativeIt + Iterator Const) :=
  match member_data_ with
  | Some data_ => d ← object this; mret (inl (c_end data_ Const this d))
  | None => n ← call_Length this; mret (inr (Detail.ctor (Some this) n))
  end.

(** [auto cend() const]: [return end();] *)
Definition cend (this : addr) : M H (NativeIt + Iterator Const) :=
  end_const this.

End Mixin.
End For.

(** ** The class template [Iterable<D>] of the older header (include/iterable.h)

    [Derived] is the host class itself, as in [class V : public Iterable<V>],
    so every entry point builds an [Iterator<Derived>] whose [Self] is not
    const-qualified.  The position is a [std::uint64_t]: all arithmetic on it
    is modulo [2^64], and a [std::ptrdiff_t] operand is first converted to
    [std::uint64_t]. *)
Module Iterable.

(** [Self &self_; std::uint64_t current_;] *)
Record Iterator (S : cv) : Type := MkIterator { self_ : addr; current_ : Z }.
Arguments MkIterator {S} _ _.
Arguments self_ {S} _.
Arguments current_ {S} _.

#[global] Instance Iterator_eq_dec (S : cv) : EqDecision (Iterator S).
Proof. solve_decision. Defined.

(** Whether a reference [P &], with [P] of constness [param], binds to an
    lvalue of constness [arg] ([dcl.init.ref]): a reference to non-const does
    not bind to a const object. *)
Definition binds (param arg : cv) : bool := is_const param || negb (is_const arg).

Section Members.
Context {H : Type} `{Host H} {S : cv}.
Implicit Types i other : Iterator S.

(** [explicit Iterator(Self &self, std::uint64_t current)]: the argument is
    converted to the parameter type [std::uint64_t]. *)
Definition ctor (self : addr) (current : Z) : Iterator S :=
  MkIterator self (to_uint64 current).

(** [decltype(auto) operator*()]: [return self_[current_];] *)
Definition op_deref (i : Iterator S) : M H lvalue :=
  s ← call_subscript S (self_ i) (current_ i);
  mret (MkLvalue S (self_ i) s).

(** [Iterator &operator++()]: [current_++; return *this;] *)
Definition op_preinc (i : Iterator S) : Iterator S * Iterator S :=
  let i' := MkIterator (self_ i) (to_uint64 (current_ i + 1)) in (i', i').

(** [Iterator operator++(int)]: [auto temp = *this; operator++(); return temp;] *)
Definition op_postinc (i : Iterator S) : Iterator S * Iterator S :=
  let temp := i in (temp, snd (op_preinc i)).

(** [Iterator &operator--()]: [current_--; return *this;] *)
Definition op_predec (i : Iterator S) : Iterator S * Iterator S :=
  let i' := MkIterator (self_ i) (to_uint64 (current_ i - 1)) in (i', i').

(** [Iterator operator--(int)] *)
Definition op_postdec (i : Iterator S) : Iterator S * Iterator S :=
  let temp := i in (temp, snd (op_predec i)).

(** [Iterator operator+(std::ptrdiff_t value)]: [return Iterator(self_, current_ + value);] *)
Definition op_plus (i : Iterator S) (value : Z) : Iterator S :=
  ctor (self_ i) (to_uint64 (current_ i + to_uint64 value)).

(** [Iterator operator-(std::ptrdiff_t value)] *)
Definition op_minus (i : Iterator S) (value : Z) : Iterator S :=
  ctor (self_ i) (to_uint64 (current_ i - to_uint64 value)).

(** [Iterator &operator+=(std::ptrdiff_t value)]: [current_ += value; return *this;] *)
Definition op_plus_assign (i : Iterator S) (value : Z) : Iterator S * Iterator S :=
  let i' := MkIterator (self_ i) (to_uint64 (current_ i + to_uint64 value)) in (i', i').

(** [Iterator &operator-=(std::ptrdiff_t value)] *)
Definition op_minus_assign (i : Iterator S) (value : Z) : Iterator S * Iterator S :=
  let i' := MkIterator (self_ i) (to_uint64 (current_ i - to_uint64 value)) in (i', i').

(** [decltype(auto) operator[](std::ptrdiff_t index)]: [return self_[current_ + index];] *)
Definition op_subscript (i : Iterator S) (index : Z) : M H lvalue :=
  s ← call_subscript S (self_ i) (to_uint64 (current_ i + to_uint64 index));
  mret (MkLvalue S (self_ i) s).

(** Comparison operators. *)
Definition op_eq (i other : Iterator S) : bool := current_ i =? current_ other.
Definition op_ne (i other : Iterator S) : bool := negb (op_eq i other).
Definition op_gt (i other : Iterator S) : bool := current_ i >? current_ other.
Definition op_lt (i other : Iterator S) : bool := current_ i <? current_ other.
Definition op_ge (i other : Iterator S) : bool := negb (op_lt i other).
Definition op_le (i other : Iterator S) : bool := negb (op_gt i other).

End Members.

Section EntryPoints.
Context {H : Type} `{Host H}.

(** An entry point whose constructor call passes an lvalue of constness [arg]
    for the parameter [Self &self], [Self] of constness [param]: where the
    reference does not bind, the entry point is ill-formed; otherwise it runs
    its [body]. *)
Definition construct {A : Type} (param arg : cv) (body : M H A) : M H A :=
  if binds param arg then body else ill_formed.

(** [auto begin()]: [return Iterator<Derived>(Cast(), 0);] with
    [Derived &Cast()]. *)
Definition begin (this : addr) : M H (Iterator Mutable) :=
  construct Mutable Mutable (mret (ctor this 0)).

(** [auto begin() const]: the same expression, with
    [const Derived &Cast() const]. *)
Definition begin_const (this : addr) : M H (Iterator Mutable) :=
  construct Mutable Const (mret (ctor this 0)).

(** [auto cbegin() const]: [return begin();] *)
Definition cbegin (this : addr) : M H (Iterator Mutable) :=
  begin_const this.

(** [auto end()]: [return Iterator<Derived>(Cast(), Cast().GetLength());] *)
Definition end_ (this : addr) : M H (Iterator Mutable) :=
  construct Mutable Mutable (n ← call_Length this; mret (ctor this n)).

(** [auto end() const] *)
Definition end_const (this : addr) : M H (Iterator Mutable) :=
  construct Mutable Const (n ← call_Length this; mret (ctor this n)).

(** [auto cend() const]: [return end();] *)
Definition cend (this : addr) : M H (Iterator Mutable) :=
  end_const this.

End EntryPoints.
End Iterable.

(** ** The range-based [for] statement

    [for (auto &x : r)] runs [for (; b != e; ++b) { auto &x = *b; ... }] on
    [b = r.begin()] and [e = r.end()].  The loop is run for at most [fuel]
    iterations; its result is the sequence of the elements visited, or [None]
    when the loop has not ended by then. *)
Section RangeFor.
Context {H It V : Type}.
Variable ne : It → It → bool.
Variable inc : It → M H It.
Variable deref : It → M H V.

Fixpoint range_loop (fuel : nat) (b e : It) : M H (option (list V)) :=
  if ne b e then
    match fuel with
    | O => mret None
    | S fuel' =>
        x ← deref b;
        b' ← inc b;
        r ← range_loop fuel' b' e;
        mret (cons x <$> r)
    end
  else mret (Some []).

End RangeFor.

Section HostRange.
Context {H : Type} `{Host H} {NativeIt : Type}.
Variable member_data_ : option (PubContainer H NativeIt).

(** The operations of the iterators of the member [data_] that the loop uses;
    dereferencing one yields an element of the member, which is an element of
    the host object. *)
Variable n_ne : NativeIt → NativeIt → bool.
Variable n_inc : NativeIt → M H NativeIt.
Variable n_deref : NativeIt → M H lvalue.

(** The loop over synthesized iterators: [!=], prefix [++] and unary [*] of
    [IteratorCore]. *)
Definition synthesized_loop {D : cv} (fuel : nat) (b e : Iterator D)
  : M H (option (list lvalue)) :=
  range_loop Detail.op_ne (λ i, defined (fst <$> Detail.op_preinc i)) Detail.op_deref
             fuel b e.

(** [for (auto &x : host.data_)]: the member iterated directly. *)
Definition for_member (fuel : nat) (data_ : PubContainer H NativeIt) (this : addr)
  : M H (option (list lvalue)) :=
  d ← object this;
  range_loop n_ne n_inc n_deref fuel (c_begin data_ Mutable this d) (c_end data_ Mutable this d).

(** [for (auto &x : host)], on a mutable host. *)
Definition for_host (fuel : nat) (this : addr) : M H (option (list lvalue)) :=
  b ← For.begin member_data_ this;
  e ← For.end_ member_data_ this;
  match b, e with
  | inl b, inl e => range_loop n_ne n_inc n_deref fuel b e
  | inr b, inr e => synthesized_loop fuel b e
  | _, _ => ill_formed
  end.

End HostRange.

(** ** The operations of the synthesized iterator, as one interface

    Every public member of [IteratorCore] (and the conversion of
    [ContiguousImpl]) as a computation in a world of host objects: [invoke m i]
    is its result together with the iterator object [i] afterwards. *)
Module Ops.
Import Detail.

Inductive method (D : cv) : Type :=
| PreInc | PostInc | PreDec | PostDec
| Plus (n : Z) | Minus (n : Z) | PlusLeft (n : Z)
| PlusAssign (n : Z) | MinusAssign (n : Z)
| Diff (other : IteratorCore D)
| Eq (other : IteratorCore D) | Ne (other : IteratorCore D)
| Lt (other : IteratorCore D) | Gt (other : IteratorCore D)
| Le (other : IteratorCore D) | Ge (other : IteratorCore D)
| Deref | Arrow | Subscript (n : Z) | ToPointer.
Arguments PreInc {D}.
Arguments PostInc {D}.
Arguments PreDec {D}.
Arguments PostDec {D}.
Arguments Plus {D} _.
Arguments Minus {D} _.
Arguments PlusLeft {D} _.
Arguments PlusAssign {D} _.
Arguments MinusAssign {D} _.
Arguments Diff {D} _.
Arguments Eq {D} _.
Arguments Ne {D} _.
Arguments Lt {D} _.
Arguments Gt {D} _.
Arguments Le {D} _.
Arguments Ge {D} _.
Arguments Deref {D}.
Arguments Arrow {D}.
Arguments Subscript {D} _.
Arguments ToPointer {D}.

Inductive result (D : cv) : Type :=
| RIterator (i : IteratorCore D)
| RBool (b : bool)
| RDifference (z : Z)
| RElement (r : lvalue).
Arguments RIterator {D} _.
Arguments RBool {D} _.
Arguments RDifference {D} _.
Arguments RElement {D} _.

(** Navigation and comparison: everything but dereference, subscript, member
    access and the pointer conversion built on member access. *)
Definition navigation {D : cv} (m : method D) : bool :=
  match m with
  | Deref | Arrow | Subscript _ | ToPointer => false
  | _ => true
  end.

Section Invoke.
Context {H : Type} `{Host H} {D : cv}.

Definition invoke (m : method D) (this : IteratorCore D)
  : M H (result D * IteratorCore D) :=
  match m with
  | PreInc => '(r, this') ← defined (op_preinc this); mret (RIterator r, this')
  | PostInc => '(r, this') ← defined (op_postinc this); mret (RIterator r, this')
  | PreDec => '(r, this') ← defined (op_predec this); mret (RIterator r, this')
  | PostDec => '(r, this') ← defined (op_postdec this); mret (RIterator r, this')
  | Plus n => r ← defined (op_plus this n); mret (RIterator r, this)
  | Minus n => r ← defined (op_minus this n); mret (RIterator r, this)
  | PlusLeft n => r ← defined (op_plus_left n this); mret (RIterator r, this)
  | PlusAssign n => '(r, this') ← defined (op_plus_assign this n); mret (RIterator r, this')
  | MinusAssign n => '(r, this') ← defined (op_minus_assign this n); mret (RIterator r, this')
  | Diff other => z ← defined (op_diff this other); mret (RDifference z, this)
  | Eq other => mret (RBool (op_eq this other), this)
  | Ne other => mret (RBool (op_ne this other), this)
  | Lt other => mret (RBool (op_lt this other), this)
  | Gt other => mret (RBool (op_gt this other), this)
  | Le other => mret (RBool (op_le this other), this)
  | Ge other => mret (RBool (op_ge this other), this)
  | Deref => r ← op_deref this; mret (RElement r, this)
  | Arrow => r ← op_arrow this; mret (RElement r, this)
  | Subscript n => r ← op_subscript this n; mret (RElement r, this)
  | ToPointer => r ← op_to_pointer this; mret (RElement r, this)
  end.

End Invoke.
End Ops.

(** ** Host classes of the scenarios *)
Module Hosts.

(** Modelled from the spec: the host of the scenarios S1 to S5 and its
    contiguous buffer of S6 (the hosts of the repository's tests are not among
    the sources): a sequence of integers, [Length()] its size, [operator[]] a
    reference to the element at the index, which is undefined outside
    [0, Length()). *)
Definition vec : Type := list Z.

#[global] Instance vec_host : Host vec := {|
  Stored := Z;
  Length d := Z.of_nat (length d);
  subscript _ k d :=
    if (0 <=? k) && (k <? Z.of_nat (length d)) then Some (k, d) else None;
  read_slot s d := if 0 <=? s then d !! Z.to_nat s else None;
  write_slot s v d := if 0 <=? s then <[Z.to_nat s := v]> d else d;
|}.

(** The iterators of the buffer [data_] of a [vec] host that declares it
    public: a pointer to an element of the buffer of the object at [b_obj],
    or one past its last element. *)
Record buffer_it : Type := MkBufferIt { b_const : cv; b_obj : addr; b_pos : Z }.

Definition vec_data_ : PubContainer vec buffer_it := {|
  c_begin q a d := MkBufferIt q a 0;
  c_end q a d := MkBufferIt q a (Z.of_nat (length d));
|}.

Definition buffer_ne (x y : buffer_it) : bool := negb (b_pos x =? b_pos y).
Definition buffer_inc (x : buffer_it) : M vec buffer_it :=
  mret (MkBufferIt (b_const x) (b_obj x) (b_pos x + 1)).
Definition buffer_deref (x : buffer_it) : M vec lvalue :=
  d ← object (b_obj x);
  if (0 <=? b_pos x) && (b_pos x <? Z.of_nat (length d))
  then mret (MkLvalue (b_const x) (b_obj x) (b_pos x))
  else defined None.

(** The host object at address 1 and nothing else. *)
Definition alone (d : vec) : world vec := MkWorld {[1%positive := d]} [].

(** The slots [0 .. n-1] of the object at address 1, as mutable elements. *)
Definition elements_upto (n : Z) : list lvalue := MkLvalue Mutable 1%positive <$> seqZ 0 n.

(** A host that presents a window of its buffer: the public member [data_]
    holds all the items, [Length()] is [win_count], and [operator[]] at [k]
    is a reference to the item [win_first + k] of the buffer, undefined
    outside [0, Length()).  The iterators of its [data_] are those of a
    buffer, as for [vec]. *)
Record window : Type := MkWindow { win_data_ : list Z; win_first : Z; win_count : Z }.

#[global] Instance window_host : Host window := {|
  Stored := Z;
  Length d := win_count d;
  subscript _ k d :=
    if (0 <=? k) && (k <? win_count d) then Some (win_first d + k, d) else None;
  read_slot s d := if 0 <=? s then win_data_ d !! Z.to_nat s else None;
  write_slot s v d :=
    if 0 <=? s
    then MkWindow (<[Z.to_nat s := v]> (win_data_ d)) (win_first d) (win_count d)
    else d;
|}.



(** A table of integer cells keyed by a signed 64-bit index, in the manner of
    a host that wraps an associative container: every index designates a
    cell, a cell that was never written holds 0, and [Length()] is a count
    the object keeps. *)
Record table : Type := MkTable { declared_length : Z; cells : gmap Z Z }.

#[global] Instance table_host : Host table := {|
  Stored := Z;
  Length t := declared_length t;
  subscript _ k t := Some (k, t);
  read_slot s t := Some (default 0 (cells t !! s));
  write_slot s v t := MkTable (declared_length t) (<[s := v]> (cells t));
|}.

End Hosts.

(** The values of [a], [b] and [c] of which exactly one is [true]. *)
Definition exactly_one (a b c : bool) : Prop :=
  (a = true ∧ b = false ∧ c = false) ∨
  (a = false ∧ b = true ∧ c = false) ∨
  (a = false ∧ b = false ∧ c = true).

(** The result of a computation, without the state it ends in. *)
Definition value_of {S A : Type} (o : outcome S A) : outcome unit A :=
  match o with
  | Done a _ => Done a tt
  | Undefined => Undefined
  | IllFormed => IllFormed
  end.

(** ** Loops over a constant host and over a host of the older header *)
Section MoreLoops.
Context {H : Type} `{Host H} {NativeIt : Type}.
Variable member_data_ : option (PubContainer H NativeIt).
Variable n_ne : NativeIt → NativeIt → bool.
Variable n_inc : NativeIt → M H NativeIt.
Variable n_deref : NativeIt → M H lvalue.

(** [for (const auto &x : host)], on a constant host: the loop runs on what
    [begin() const] and [end() const] return. *)
Definition for_const_host (fuel : nat) (this : addr) : M H (option (list lvalue)) :=
  b ← For.begin_const member_data_ this;
  e ← For.end_const member_data_ this;
  match b, e with
  | inl b, inl e => range_loop n_ne n_inc n_deref fuel b e
  | inr b, inr e => synthesized_loop fuel b e
  | _, _ => ill_formed
  end.

(** The loop over iterators of the older header: [!=], prefix [++] and unary
    [*] of [Iterable<D>::Iterator]. *)
Definition legacy_loop {S : cv} (fuel : nat) (b e : Iterable.Iterator S)
  : M H (option (list lvalue)) :=
  range_loop Iterable.op_ne (λ i, mret (fst (Iterable.op_preinc i))) Iterable.op_deref
             fuel b e.

(** [for (auto &x : host)], on a mutable host that derives from [Iterable<D>]. *)
Definition for_legacy_host (fuel : nat) (this : addr) : M H (option (list lvalue)) :=
  b ← Iterable.begin this;
  e ← Iterable.end_ this;
  legacy_loop fuel b e.

End MoreLoops.

(** ** The compile-time selections of iterator.h

    [ITERABLE_CPP_20] is a macro of [iterable/define.h], a header that is not
    among the sources: it is a parameter.  Of a type only its constness is
    kept, as for [HandledReturn]. *)
Module Compat.

#[global] Instance Tag_eq_dec : EqDecision Tag.
Proof. solve_decision. Defined.

Inductive category : Set := random_access_iterator_tag | contiguous_iterator_tag.

(** [Detail::ConvertTag<T>]: under [ITERABLE_CPP_20],
    [std::conditional_t<T == Tag::Default, std::random_access_iterator_tag,
    std::contiguous_iterator_tag>]; otherwise [std::random_access_iterator_tag]. *)
Definition ConvertTag (ITERABLE_CPP_20 : bool) (T : Tag) : category :=
  if ITERABLE_CPP_20
  then (if decide (T = Default) then random_access_iterator_tag
        else contiguous_iterator_tag)
  else random_access_iterator_tag.

(** [Detail::Stored<D>] is [std::decay_t<OperatorReturn<D>>]: decay strips the
    reference and the qualifiers of what [operator[]] returns, so the type is
    not const-qualified, whatever [D] is. *)
Definition Stored_cv (D : cv) : cv := Mutable.

(** [Detail::IteratorCompat<D, T>]: [iterator_category = ConvertTag<T>],
    [value_type = Stored<D>], [pointer = Stored<D> *] and
    [reference = Stored<D> &]; for the last three, the constness of the type
    pointed or referred to. *)
Record IteratorCompat : Set := MkCompat {
  iterator_category : category;
  value_type : cv;
  pointer : cv;
  reference : cv;
}.

Definition IteratorCompat_of (ITERABLE_CPP_20 : bool) (D : cv) (T : Tag) : IteratorCompat :=
  MkCompat (ConvertTag ITERABLE_CPP_20 T) (Stored_cv D) (Stored_cv D) (Stored_cv D).

(** [Detail::SelectImplS<D, I, T>::Type]: the primary template selects
    [IteratorCore<D, I>]; the specialization for [Tag::Contiguous], which
    exists under [ITERABLE_CPP_20] only, selects [ContiguousImpl<D, I>]. *)
Inductive implementation : Set := UseIteratorCore | UseContiguousImpl.

Definition SelectImpl (ITERABLE_CPP_20 : bool) (T : Tag) : implementation :=
  match T with
  | Contiguous => if ITERABLE_CPP_20 then UseContiguousImpl else UseIteratorCore
  | Default => UseIteratorCore
  end.

(** The conversion to a raw pointer is a member of [ContiguousImpl] alone. *)
Definition has_pointer_conversion (i : implementation) : bool :=
  match i with UseContiguousImpl => true | UseIteratorCore => false end.

End Compat.

(** The state in which the object at [this] has become [d'] and [log] has been
    appended to the calls; the other objects are as they were. *)
Definition after {H : Type} (this : addr) (d' : H) (log : list call) (w : world H)
  : world H :=
  MkWorld (<[this := d']> (heap w)) (calls w ++ log).


(** * Properties *)

(** ** Integer conversions *)
Module CxxFacts.

Lemma in_int_spec z : in_int z = true ↔ INT_MIN ≤ z ≤ INT_MAX.
Proof. unfold in_int. rewrite andb_true_iff, !Z.leb_le. tauto. Qed.

Lemma in_ptrdiff_spec z : in_ptrdiff z = true ↔ PTRDIFF_MIN ≤ z ≤ PTRDIFF_MAX.
Proof. unfold in_ptrdiff. rewrite andb_true_iff, !Z.leb_le. tauto. Qed.

Lemma in_int_ptrdiff z : in_int z = true → in_ptrdiff z = true.
Proof.
  rewrite in_int_spec, in_ptrdiff_spec.
  unfold INT_MIN, INT_MAX, PTRDIFF_MIN, PTRDIFF_MAX. lia.
Qed.

Lemma wrap_signed_range bits z :
  0 < bits → - 2 ^ (bits - 1) ≤ wrap_signed bits z ≤ 2 ^ (bits - 1) - 1.
Proof.
  intros Hb. unfold wrap_signed.
  assert (Hp : 2 ^ bits = 2 * 2 ^ (bits - 1)).
  { rewrite <- Z.pow_succ_r by lia. f_equal. lia. }
  assert (0 < 2 ^ (bits - 1)) by (apply Z.pow_pos_nonneg; lia).
  pose proof (Z.mod_pos_bound (z + 2 ^ (bits - 1)) (2 ^ bits)). lia.
Qed.

Lemma wrap_signed_id bits z :
  0 < bits → - 2 ^ (bits - 1) ≤ z ≤ 2 ^ (bits - 1) - 1 → wrap_signed bits z = z.
Proof.
  intros Hb Hz. unfold wrap_signed.
  assert (Hp : 2 ^ bits = 2 * 2 ^ (bits - 1)).
  { rewrite <- Z.pow_succ_r by lia. f_equal. lia. }
  rewrite Z.mod_small by lia. lia.
Qed.

Lemma wrap_signed_congr bits z : 0 < bits → wrap_signed bits z mod 2 ^ bits = z mod 2 ^ bits.
Proof.
  intros Hb. unfold wrap_signed.
  assert (Hp : 2 ^ bits = 2 * 2 ^ (bits - 1)).
  { rewrite <- Z.pow_succ_r by lia. f_equal. lia. }
  assert (0 < 2 ^ (bits - 1)) by (apply Z.pow_pos_nonneg; lia).
  rewrite Zminus_mod_idemp_l. f_equal. lia.
Qed.

Lemma wrap_signed_eq bits a b :
  0 < bits → a mod 2 ^ bits = b mod 2 ^ bits → wrap_signed bits a = wrap_signed bits b.
Proof.
  intros Hb Hab. unfold wrap_signed.
  rewrite <- (Zplus_mod_idemp_l a), Hab, Zplus_mod_idemp_l. reflexivity.
Qed.

(** [to_int] is the reduction to 32 bits in two's complement: the result is an
    [int] and differs from the argument by a multiple of [2^32]. *)
Lemma to_int_in_int z : in_int (to_int z) = true.
Proof.
  apply in_int_spec. pose proof (wrap_signed_range 32 z).
  unfold to_int, INT_MIN, INT_MAX. change (32 - 1) with 31 in *. lia.
Qed.

Lemma to_int_congr z : to_int z mod 2 ^ 32 = z mod 2 ^ 32.
Proof. apply (wrap_signed_congr 32). lia. Qed.

Lemma to_int_id z : in_int z = true → to_int z = z.
Proof.
  rewrite in_int_spec. unfold INT_MIN, INT_MAX. intros.
  apply (wrap_signed_id 32); [lia|]. change (32 - 1) with 31. lia.
Qed.

Lemma to_int_fixed z : to_int z = z ↔ in_int z = true.
Proof.
  split; [|apply to_int_id]. intros <-. apply to_int_in_int.
Qed.

Lemma to_int_plus_l a b : to_int (to_int a + b) = to_int (a + b).
Proof.
  apply (wrap_signed_eq 32); [lia|].
  rewrite <- Zplus_mod_idemp_l, to_int_congr, Zplus_mod_idemp_l. reflexivity.
Qed.

Lemma to_int_minus_l a b : to_int (to_int a - b) = to_int (a - b).
Proof.
  apply (wrap_signed_eq 32); [lia|].
  rewrite <- Zminus_mod_idemp_l, to_int_congr, Zminus_mod_idemp_l. reflexivity.
Qed.

Lemma to_uint64_range z : 0 ≤ to_uint64 z ≤ UINT64_MAX.
Proof.
  unfold to_uint64, UINT64_MAX. pose proof (Z.mod_pos_bound z (2 ^ 64)). lia.
Qed.

Lemma to_uint64_id z : in_uint64 z = true → to_uint64 z = z.
Proof.
  unfold in_uint64, UINT64_MAX, to_uint64.
  rewrite andb_true_iff, !Z.leb_le. intros. apply Z.mod_small. lia.
Qed.

Lemma to_uint64_idemp z : to_uint64 (to_uint64 z) = to_uint64 z.
Proof. unfold to_uint64. apply Zmod_mod. Qed.

Lemma to_uint64_plus a b : to_uint64 (a + to_uint64 b) = to_uint64 (a + b).
Proof. unfold to_uint64. apply Zplus_mod_idemp_r. Qed.

Lemma to_uint64_minus a b : to_uint64 (a - to_uint64 b) = to_uint64 (a - b).
Proof. unfold to_uint64. apply Zminus_mod_idemp_r. Qed.

Lemma int_expr_Some z c : int_expr z = Some c ↔ in_int z = true ∧ c = z.
Proof. unfold int_expr. destruct (in_int z); intuition congruence. Qed.

Lemma int_expr_None z : int_expr z = None ↔ in_int z = false.
Proof. unfold int_expr. destruct (in_int z); intuition congruence. Qed.

Lemma ptrdiff_expr_Some z c : ptrdiff_expr z = Some c ↔ in_ptrdiff z = true ∧ c = z.
Proof. unfold ptrdiff_expr. destruct (in_ptrdiff z); intuition congruence. Qed.

End CxxFacts.

(** ** Position arithmetic of [IteratorCore] *)
Module CoreFacts.
Import CxxFacts Detail.

Section Arithmetic.
Context {D : cv}.
Implicit Types i j other : IteratorCore D.

Lemma core_eq i j : data_ i = data_ j → current_ i = current_ j → i = j.
Proof. destruct i, j; simpl; congruence. Qed.

Lemma ctor_valid (p : ptr) (c : Z) : valid (ctor (D := D) p c).
Proof. apply to_int_in_int. Qed.

Lemma incr_Some i i' :
  incr i = Some i' ↔ current_ i + 1 ≤ INT_MAX ∧ INT_MIN ≤ current_ i + 1
                     ∧ i' = MkCore (data_ i) (current_ i + 1).
Proof.
  unfold incr. destruct (int_expr (current_ i + 1)) as [c|] eqn:E; simpl.
  - apply int_expr_Some in E as [E ->]. apply in_int_spec in E.
    split; [intros [= <-]; tauto | intros (_ & _ & ->); reflexivity].
  - apply int_expr_None in E. split; [discriminate|].
    intros (? & ? & _). assert (in_int (current_ i + 1) = true) by (apply in_int_spec; lia).
    congruence.
Qed.

Lemma decr_Some i i' :
  decr i = Some i' ↔ current_ i - 1 ≤ INT_MAX ∧ INT_MIN ≤ current_ i - 1
                     ∧ i' = MkCore (data_ i) (current_ i - 1).
Proof.
  unfold decr. destruct (int_expr (current_ i - 1)) as [c|] eqn:E; simpl.
  - apply int_expr_Some in E as [E ->]. apply in_int_spec in E.
    split; [intros [= <-]; tauto | intros (_ & _ & ->); reflexivity].
  - apply int_expr_None in E. split; [discriminate|].
    intros (? & ? & _). assert (in_int (current_ i - 1) = true) by (apply in_int_spec; lia).
    congruence.
Qed.

Lemma decr_incr i i' : valid i → incr i = Some i' → decr i' = Some i.
Proof.
  intros Hv Hi. apply incr_Some in Hi as (? & ? & ->).
  apply in_int_spec in Hv. apply decr_Some. simpl.
  repeat split; try lia. apply core_eq; simpl; [reflexivity | lia].
Qed.

Lemma incr_decr i i' : valid i → decr i = Some i' → incr i' = Some i.
Proof.
  intros Hv Hi. apply decr_Some in Hi as (? & ? & ->).
  apply in_int_spec in Hv. apply incr_Some. simpl.
  repeat split; try lia. apply core_eq; simpl; [reflexivity | lia].
Qed.

Lemma op_plus_Some i n j :
  op_plus i n = Some j ↔
  in_ptrdiff (current_ i + n) = true ∧ j = MkCore (data_ i) (to_int (current_ i + n)).
Proof.
  unfold op_plus, ctor. destruct (ptrdiff_expr (current_ i + n)) as [s|] eqn:E; simpl.
  - apply ptrdiff_expr_Some in E as [E ->]. intuition congruence.
  - unfold ptrdiff_expr in E. destruct (in_ptrdiff (current_ i + n)); [discriminate|].
    intuition congruence.
Qed.

Lemma op_minus_Some i n j :
  op_minus i n = Some j ↔
  in_ptrdiff (current_ i - n) = true ∧ j = MkCore (data_ i) (to_int (current_ i - n)).
Proof.
  unfold op_minus, ctor. destruct (ptrdiff_expr (current_ i - n)) as [s|] eqn:E; simpl.
  - apply ptrdiff_expr_Some in E as [E ->]. intuition congruence.
  - unfold ptrdiff_expr in E. destruct (in_ptrdiff (current_ i - n)); [discriminate|].
    intuition congruence.
Qed.

Lemma op_plus_assign_plus i n :
  op_plus_assign i n = (j ← op_plus i n; Some (j, j)).
Proof.
  unfold op_plus_assign, op_plus, ctor.
  destruct (ptrdiff_expr (current_ i + n)); reflexivity.
Qed.

Lemma op_minus_assign_minus i n :
  op_minus_assign i n = (j ← op_minus i n; Some (j, j)).
Proof.
  unfold op_minus_assign, op_minus, ctor.
  destruct (ptrdiff_expr (current_ i - n)); reflexivity.
Qed.

Lemma op_diff_Some i other z :
  op_diff i other = Some z ↔
  in_int (current_ i - current_ other) = true ∧ z = current_ i - current_ other.
Proof. apply int_expr_Some. Qed.

(** An offset that keeps the position an [int] is added exactly. *)
Lemma op_plus_exact i n :
  in_int (current_ i + n) = true →
  op_plus i n = Some (MkCore (data_ i) (current_ i + n)).
Proof.
  intros Hn. apply op_plus_Some. split; [by apply in_int_ptrdiff|].
  by rewrite to_int_id.
Qed.

Lemma op_minus_exact i n :
  in_int (current_ i - n) = true →
  op_minus i n = Some (MkCore (data_ i) (current_ i - n)).
Proof.
  intros Hn. apply op_minus_Some. split; [by apply in_int_ptrdiff|].
  by rewrite to_int_id.
Qed.

End Arithmetic.
End CoreFacts.

(** ** Comparison *)
Module Ordering.
Import CxxFacts.

Lemma trichotomy (x y : Z) : exactly_one (x <? y) (x =? y) (x >? y).
Proof.
  unfold exactly_one. rewrite Z.gtb_ltb.
  destruct (Z.ltb_spec x y), (Z.eqb_spec x y), (Z.ltb_spec y x); try lia; tauto.
Qed.

(** C5.  For any two iterators [i] and [j], of either iterator type, exactly
    one of [i < j], [i == j], [i > j] holds; each comparison operator gives the
    result of the same comparison of the two stored positions, so [i == j]
    holds exactly when the positions are equal; and no comparison depends on
    the host the iterators refer to. *)
Theorem ordering_consistency :
  (∀ (D : cv) (i j : Detail.IteratorCore D),
     exactly_one (Detail.op_lt i j) (Detail.op_eq i j) (Detail.op_gt i j)
     ∧ (Detail.op_eq i j = true ↔ Detail.current_ i = Detail.current_ j)
     ∧ (Detail.op_ne i j = true ↔ Detail.current_ i ≠ Detail.current_ j)
     ∧ (Detail.op_lt i j = true ↔ Detail.current_ i < Detail.current_ j)
     ∧ (Detail.op_gt i j = true ↔ Detail.current_ j < Detail.current_ i)
     ∧ (Detail.op_le i j = true ↔ Detail.current_ i ≤ Detail.current_ j)
     ∧ (Detail.op_ge i j = true ↔ Detail.current_ j ≤ Detail.current_ i)
     ∧ (∀ p p' : ptr,
          let i' := Detail.MkCore (D := D) p (Detail.current_ i) in
          let j' := Detail.MkCore (D := D) p' (Detail.current_ j) in
          Detail.op_eq i' j' = Detail.op_eq i j ∧ Detail.op_ne i' j' = Detail.op_ne i j
          ∧ Detail.op_lt i' j' = Detail.op_lt i j ∧ Detail.op_gt i' j' = Detail.op_gt i j
          ∧ Detail.op_le i' j' = Detail.op_le i j ∧ Detail.op_ge i' j' = Detail.op_ge i j))
  ∧
  (∀ (S : cv) (i j : Iterable.Iterator S),
     exactly_one (Iterable.op_lt i j) (Iterable.op_eq i j) (Iterable.op_gt i j)
     ∧ (Iterable.op_eq i j = true ↔ Iterable.current_ i = Iterable.current_ j)
     ∧ (Iterable.op_ne i j = true ↔ Iterable.current_ i ≠ Iterable.current_ j)
     ∧ (Iterable.op_lt i j = true ↔ Iterable.current_ i < Iterable.current_ j)
     ∧ (Iterable.op_gt i j = true ↔ Iterable.current_ j < Iterable.current_ i)
     ∧ (Iterable.op_le i j = true ↔ Iterable.current_ i ≤ Iterable.current_ j)
     ∧ (Iterable.op_ge i j = true ↔ Iterable.current_ j ≤ Iterable.current_ i)
     ∧ (∀ a a' : addr,
          let i' := Iterable.MkIterator (S := S) a (Iterable.current_ i) in
          let j' := Iterable.MkIterator (S := S) a' (Iterable.current_ j) in
          Iterable.op_eq i' j' = Iterable.op_eq i j ∧ Iterable.op_ne i' j' = Iterable.op_ne i j
          ∧ Iterable.op_lt i' j' = Iterable.op_lt i j ∧ Iterable.op_gt i' j' = Iterable.op_gt i j
          ∧ Iterable.op_le i' j' = Iterable.op_le i j ∧ Iterable.op_ge i' j' = Iterable.op_ge i j)).
Proof.
  split.
  - intros D [p x] [p' y].
    unfold Detail.op_lt, Detail.op_eq, Detail.op_gt, Detail.op_ne, Detail.op_le,
      Detail.op_ge; simpl.
    split; [apply trichotomy|].
    rewrite negb_true_iff, Z.eqb_neq, Z.eqb_eq, Z.ltb_lt, Z.gtb_ltb, Z.ltb_lt,
      Z.leb_le, Z.geb_leb, Z.leb_le.
    repeat split; intros; lia.
  - intros S [a x] [a' y].
    unfold Iterable.op_le, Iterable.op_ge, Iterable.op_ne, Iterable.op_lt,
      Iterable.op_eq, Iterable.op_gt; simpl.
    split; [apply trichotomy|].
    rewrite !negb_true_iff, Z.eqb_neq, Z.eqb_eq, Z.ltb_lt, Z.gtb_ltb, Z.ltb_lt,
      Z.ltb_ge, Z.ltb_ge.
    repeat split; intros; lia.
Qed.

End Ordering.

(** ** Increment, decrement and offsets *)
Module Navigation.
Import CxxFacts CoreFacts Detail.

Lemma is_Some_incr {D : cv} (i : IteratorCore D) :
  valid i → is_Some (incr i) ↔ current_ i < INT_MAX.
Proof.
  intros Hv. apply in_int_spec in Hv. split.
  - intros [i' Hi]. apply incr_Some in Hi. lia.
  - intros Hlt. eexists. apply incr_Some. repeat split; lia.
Qed.

Lemma is_Some_decr {D : cv} (i : IteratorCore D) :
  valid i → is_Some (decr i) ↔ INT_MIN < current_ i.
Proof.
  intros Hv. apply in_int_spec in Hv. split.
  - intros [i' Hi]. apply decr_Some in Hi. lia.
  - intros Hlt. eexists. apply decr_Some. repeat split; lia.
Qed.

Lemma is_Some_pair {A B : Type} (o : option A) (f : A → B) :
  is_Some (a ← o; Some (f a)) ↔ is_Some o.
Proof. destruct o; simpl; split; intros [? ?]; eauto; discriminate. Qed.

(** C8.  On every iterator, an increment that has a result (the position is
    below [INT_MAX]; above it [current_++] overflows [int]) moves the position
    by exactly +1 and leaves the host pointer alone, and the matching decrement
    then restores the iterator; symmetrically a decrement (defined above
    [INT_MIN]) moves it by exactly -1 and the matching increment restores it.
    The prefix forms return the updated iterator, the postfix forms an
    iterator at the original position. *)
Theorem increment_decrement_round_trip (D : cv) (i : IteratorCore D) :
  valid i →
  (∀ r i', op_preinc i = Some (r, i') →
     current_ i' = current_ i + 1 ∧ data_ i' = data_ i ∧ r = i'
     ∧ op_predec i' = Some (i, i))
  ∧ (∀ r i', op_postinc i = Some (r, i') →
     current_ i' = current_ i + 1 ∧ data_ i' = data_ i ∧ r = i
     ∧ op_postdec i' = Some (i', i))
  ∧ (∀ r i', op_predec i = Some (r, i') →
     current_ i' = current_ i - 1 ∧ data_ i' = data_ i ∧ r = i'
     ∧ op_preinc i' = Some (i, i))
  ∧ (∀ r i', op_postdec i = Some (r, i') →
     current_ i' = current_ i - 1 ∧ data_ i' = data_ i ∧ r = i
     ∧ op_postinc i' = Some (i', i))
  ∧ (is_Some (op_preinc i) ↔ current_ i < INT_MAX)
  ∧ (is_Some (op_postinc i) ↔ current_ i < INT_MAX)
  ∧ (is_Some (op_predec i) ↔ INT_MIN < current_ i)
  ∧ (is_Some (op_postdec i) ↔ INT_MIN < current_ i).
Proof.
  intros Hv.
  assert (Hinc : ∀ i', incr i = Some i' →
            current_ i' = current_ i + 1 ∧ data_ i' = data_ i ∧ decr i' = Some i).
  { intros i' Hi. pose proof (decr_incr i i' Hv Hi).
    apply incr_Some in Hi as (_ & _ & ->). auto. }
  assert (Hdec : ∀ i', decr i = Some i' →
            current_ i' = current_ i - 1 ∧ data_ i' = data_ i ∧ incr i' = Some i).
  { intros i' Hi. pose proof (incr_decr i i' Hv Hi).
    apply decr_Some in Hi as (_ & _ & ->). auto. }
  unfold op_preinc, op_postinc, op_predec, op_postdec.
  split; [|split; [|split; [|split; [|repeat split]]]].
  1-2: intros r i' Hop; destruct (incr i) as [x|] eqn:E; simpl in Hop; [|discriminate];
    destruct (Hinc x eq_refl) as (Hc & Hd & Hback); injection Hop as <- <-;
    rewrite Hback; auto.
  1-2: intros r i' Hop; destruct (decr i) as [x|] eqn:E; simpl in Hop; [|discriminate];
    destruct (Hdec x eq_refl) as (Hc & Hd & Hback); injection Hop as <- <-;
    rewrite Hback; auto.
  all: rewrite is_Some_pair; first [by apply is_Some_incr | by apply is_Some_decr].
Qed.

Lemma increment_decrement_round_trip_witness :
  let i : IteratorCore Mutable := MkCore (Some 1%positive) 5 in
  let i' : IteratorCore Mutable := MkCore (Some 1%positive) 6 in
  valid i ∧ op_preinc i = Some (i', i') ∧ op_predec i' = Some (i, i).
Proof.
  intros i i'. assert (Hv : valid i) by reflexivity.
  destruct (increment_decrement_round_trip Mutable i Hv) as (Hpre & _).
  destruct (Hpre i' i' eq_refl) as (_ & _ & _ & Hback).
  split; [exact Hv|]. split; [reflexivity | exact Hback].
Defined.

(** The iterator of the older header: its position is a [std::uint64_t], so
    increment and decrement are total and inverse to each other modulo [2^64]. *)
Lemma legacy_round_trip (S : cv) (i : Iterable.Iterator S) :
  in_uint64 (Iterable.current_ i) = true →
  snd (Iterable.op_predec (snd (Iterable.op_preinc i))) = i
  ∧ snd (Iterable.op_postdec (snd (Iterable.op_postinc i))) = i
  ∧ fst (Iterable.op_postinc i) = i ∧ fst (Iterable.op_postdec i) = i.
Proof.
  intros Hu. destruct i as [a c]; simpl in *.
  assert (E : to_uint64 (to_uint64 (c + 1) - 1) = c).
  { unfold to_uint64 at 2. unfold to_uint64. rewrite Zminus_mod_idemp_l.
    replace (c + 1 - 1) with c by lia. by apply to_uint64_id. }
  rewrite E. auto.
Qed.

Lemma op_diff_after_plus {D : cv} (i j : IteratorCore D) (k : Z) :
  valid i → op_plus i k = Some j →
  op_diff j i = Some k ↔ in_int k = true ∧ in_int (current_ i + k) = true.
Proof.
  intros Hv Hj. apply op_plus_Some in Hj as [Hp ->].
  rewrite op_diff_Some; simpl. split.
  - intros [Hd Hk].
    assert (Hfix : to_int (current_ i + k) = current_ i + k) by lia.
    split; [|by apply to_int_fixed]. rewrite Hk. exact Hd.
  - intros [Hk Hs]. rewrite (to_int_id _ Hs).
    replace (current_ i + k - current_ i) with k by lia. auto.
Qed.

(** C7 (as amended).  [(i + k) - k == i] holds for every iterator [i] and
    offset [k] for which the two operations are defined, that is, whose
    [std::ptrdiff_t] sum and difference do not overflow, and for every [i] and
    [k] in the [std::uint64_t] iterator of the older header.  The iterator
    difference [(i + k) - i] equals [k] exactly when [k] and [position + k] are
    both representable as [int]; in that case all three operations are
    defined. *)
Theorem addition_inverse :
  (∀ (D : cv) (i j j' : IteratorCore D) (k : Z),
     valid i → op_plus i k = Some j → op_minus j k = Some j' → j' = i)
  ∧ (∀ (D : cv) (i j : IteratorCore D) (k : Z),
     valid i → op_plus i k = Some j →
     op_diff j i = Some k ↔ in_int k = true ∧ in_int (current_ i + k) = true)
  ∧ (∀ (D : cv) (i : IteratorCore D) (k : Z),
     valid i → in_int (current_ i + k) = true →
     ∃ j, op_plus i k = Some j ∧ current_ j = current_ i + k ∧ op_minus j k = Some i)
  ∧ (∀ (S : cv) (i : Iterable.Iterator S) (k : Z),
     in_uint64 (Iterable.current_ i) = true →
     Iterable.op_minus (Iterable.op_plus i k) k = i).
Proof.
  split; [|split; [|split]].
  - intros D i j j' k Hv Hj Hj'.
    apply op_plus_Some in Hj as [_ ->]. apply op_minus_Some in Hj' as [_ ->]; simpl.
    apply core_eq; simpl; [reflexivity|].
    rewrite to_int_minus_l. replace (current_ i + k - k) with (current_ i) by lia.
    by apply to_int_id.
  - intros D i j k. apply op_diff_after_plus.
  - intros D i k Hv Hs. eexists. split; [by apply op_plus_exact|]. split; [reflexivity|].
    rewrite op_minus_exact; simpl.
    + f_equal. apply core_eq; simpl; [reflexivity | lia].
    + replace (current_ i + k - k) with (current_ i) by lia. exact Hv.
  - intros S [a c] k Hu. unfold Iterable.op_minus, Iterable.op_plus, Iterable.ctor; simpl in *.
    f_equal. rewrite !to_uint64_idemp, to_uint64_plus, to_uint64_minus.
    unfold to_uint64 at 2. unfold to_uint64. rewrite Zminus_mod_idemp_l.
    replace (c + k - k) with c by lia. by apply to_uint64_id.
Qed.

Lemma addition_inverse_witness :
  let i : IteratorCore Mutable := MkCore (Some 1%positive) 1 in
  let j : IteratorCore Mutable := MkCore (Some 1%positive) 3 in
  valid i ∧ op_plus i 2 = Some j ∧ op_minus j 2 = Some i ∧ op_diff j i = Some 2.
Proof.
  intros i j. assert (Hv : valid i) by reflexivity.
  destruct addition_inverse as (Hback & Hdiff & Hex & _).
  pose proof (Hback Mutable i j i 2 Hv eq_refl eq_refl) as _.
  destruct (Hex Mutable i 2 Hv eq_refl) as (j0 & Hj0 & _ & _).
  split; [exact Hv|]. split; [reflexivity|]. split; [reflexivity|].
  apply (Hdiff Mutable i j 2 Hv eq_refl). split; reflexivity.
Defined.

(** C7, as stated, fails: from the iterator at position 0 the offset [2^32], a
    [std::ptrdiff_t], is added without overflow, the sum is converted to [int]
    and the result is at position 0 again, so [(i + k) - i] is 0 and not [k]. *)
Lemma difference_after_addition_fails :
  let i : IteratorCore Mutable := MkCore (Some 1%positive) 0 in
  let k := 2 ^ 32 in
  valid i ∧ in_ptrdiff k = true
  ∧ op_plus i k = Some i
  ∧ (j ← op_plus i k; op_diff j i) = Some 0
  ∧ (j ← op_plus i k; op_diff j i) ≠ Some k.
Proof.
  intros i k. repeat split; try reflexivity. discriminate.
Qed.

End Navigation.

(** ** Running computations *)
Module Run.

Section Monad.
Context {H : Type} `{Host H}.

Lemma bind_Done {A B : Type} (m : M H A) (f : A → M H B) (w w' : world H) (a : A) :
  m w = Done a w' → (x ← m; f x) w = f a w'.
Proof. intros E. unfold mbind, M_bind. by rewrite E. Qed.

Lemma bind_ret_r {A : Type} (m : M H A) (w : world H) : (x ← m; mret x) w = m w.
Proof. unfold mbind, M_bind, mret, M_ret. by destruct (m w). Qed.

Lemma object_Done (a : addr) (d : H) (w : world H) :
  heap w !! a = Some d → object a w = Done d w.
Proof. intros E. unfold object, defined. by rewrite E. Qed.

Lemma call_Length_Done (a : addr) (d : H) (w : world H) :
  heap w !! a = Some d →
  call_Length a w = Done (Length d) (MkWorld (heap w) (calls w ++ [CallLength a])).
Proof. intros E. unfold call_Length. by rewrite E. Qed.

Lemma call_subscript_Done (q : cv) (a : addr) (k : Z) (w w' : world H) (s : slot) :
  call_subscript q a k w = Done s w' ↔
  ∃ d d', heap w !! a = Some d ∧ subscript q k d = Some (s, d')
          ∧ w' = MkWorld (<[a := d']> (heap w)) (calls w ++ [CallSubscript a q k]).
Proof.
  unfold call_subscript. destruct (heap w !! a) as [d|].
  - destruct (subscript q k d) as [[s0 d']|] eqn:E.
    + split.
      * intros [= <- <-]. eauto.
      * intros (d0 & d1 & [= <-] & E' & ->). congruence.
    + split; [discriminate|]. intros (d0 & d1 & [= <-] & E' & _). congruence.
  - split; [discriminate|]. intros (d0 & d1 & [=] & _).
Qed.

End Monad.
End Run.

(** ** The entry points of [For] on a host without a public [data_] *)
Module EntryPoints.
Import CxxFacts CoreFacts Detail Run.

Section Synthesized.
Context {H : Type} `{Host H} {NativeIt : Type}.

Local Abbreviation no_data_ := (None : option (PubContainer H NativeIt)).

Lemma end_position (this : addr) (d : H) (w : world H) :
  heap w !! this = Some d →
  For.end_ no_data_ this w
  = Done (inr (MkCore (Some this) (to_int (Length d))))
         (MkWorld (heap w) (calls w ++ [CallLength this]))
  ∧ For.end_const no_data_ this w
  = Done (inr (MkCore (Some this) (to_int (Length d))))
         (MkWorld (heap w) (calls w ++ [CallLength this])).
Proof.
  intros E. unfold For.end_, For.end_const.
  rewrite !(bind_Done _ _ _ _ _ (call_Length_Done this d w E)). split; reflexivity.
Qed.

(** C1 (as amended).  For every host object of a class without a public
    [data_] whose length [n] is at most [INT_MAX]: [begin()], [begin() const]
    and [cbegin()] return the iterator at position 0 on that object; [end()],
    [end() const] and [cend()] return the iterator at position [n], after one
    call of [Length()] that leaves every object as it was; the iterator
    difference [end() - begin()] is [n]; and when [n] is 0, [begin() == end()]. *)
Theorem distance_law (this : addr) (d : H) (w : world H) :
  heap w !! this = Some d → 0 ≤ Length d ≤ INT_MAX →
  let w' := MkWorld (heap w) (calls w ++ [CallLength this]) in
  (For.begin no_data_ this w = Done (inr (MkCore (Some this) 0)) w
   ∧ For.begin_const no_data_ this w = Done (inr (MkCore (Some this) 0)) w
   ∧ For.cbegin no_data_ this w = Done (inr (MkCore (Some this) 0)) w)
  ∧ (For.end_ no_data_ this w = Done (inr (MkCore (Some this) (Length d))) w'
     ∧ For.end_const no_data_ this w = Done (inr (MkCore (Some this) (Length d))) w'
     ∧ For.cend no_data_ this w = Done (inr (MkCore (Some this) (Length d))) w')
  ∧ (∀ D : cv,
       op_diff (D := D) (MkCore (Some this) (Length d)) (MkCore (Some this) 0)
       = Some (Length d))
  ∧ (∀ D : cv,
       Length d = 0 →
       op_eq (D := D) (MkCore (Some this) 0) (MkCore (Some this) (Length d)) = true).
Proof.
  intros E Hn w'.
  assert (Hin : in_int (Length d) = true).
  { apply in_int_spec. unfold INT_MIN. lia. }
  destruct (end_position this d w E) as [He Hec].
  rewrite (to_int_id _ Hin) in He, Hec.
  split; [repeat split|]. split; [by repeat split|]. split.
  - intros D. apply op_diff_Some; simpl. rewrite Z.sub_0_r. auto.
  - intros D Hz. unfold op_eq; simpl. rewrite Hz. reflexivity.
Qed.

End Synthesized.

Lemma distance_law_witness :
  let w : world Hosts.vec := MkWorld {[1%positive := [10; 20; 30; 40]]} [] in
  For.end_ (NativeIt := Empty_set) None 1%positive w
  = Done (inr (MkCore (Some 1%positive) 4)) (MkWorld (heap w) [CallLength 1%positive])
  ∧ op_diff (D := Mutable) (MkCore (Some 1%positive) 4) (MkCore (Some 1%positive) 0) = Some 4.
Proof.
  intros w.
  assert (E : heap w !! 1%positive = Some [10; 20; 30; 40]) by reflexivity.
  assert (Hn : 0 ≤ Length [10; 20; 30; 40] ≤ INT_MAX) by (vm_compute; split; discriminate).
  destruct (distance_law (NativeIt := Empty_set) 1%positive _ w E Hn)
    as (_ & (He & _) & Hd & _).
  split; [exact He | exact (Hd Mutable)].
Defined.

(** C1, as stated, fails: a host object whose [Length()] is [2^31] (one more
    than [INT_MAX]) gets an [end()] at position [-2^31], because the length is
    converted to the [int] parameter of the constructor, and [end() - begin()]
    is [-2^31] and not the length. *)
Lemma distance_law_fails_beyond_int :
  let t := Hosts.MkTable (2 ^ 31) ∅ in
  let w : world Hosts.table := MkWorld {[1%positive := t]} [] in
  let b : Iterator Mutable := MkCore (Some 1%positive) 0 in
  let e : Iterator Mutable := MkCore (Some 1%positive) (- 2 ^ 31) in
  Length t = 2 ^ 31
  ∧ value_of (For.begin (NativeIt := Empty_set) None 1%positive w) = Done (inr b) tt
  ∧ value_of (For.end_ (NativeIt := Empty_set) None 1%positive w) = Done (inr e) tt
  ∧ current_ e ≠ Length t
  ∧ op_diff e b = Some (- 2 ^ 31)
  ∧ op_diff e b ≠ Some (Length t).
Proof.
  intros t w b e. repeat split; try reflexivity; discriminate.
Qed.

End EntryPoints.

(** ** Dereference and subscript *)
Module Addressing.
Import CxxFacts CoreFacts Detail Run.

Lemma HandledReturn_id (D : cv) : HandledReturn D = D.
Proof. by destruct D. Qed.

Section Synthesized.
Context {H : Type} `{Host H} {NativeIt : Type}.

Local Abbreviation no_data_ := (None : option (PubContainer H NativeIt)).

(** What a dereference does: one call of the host's [operator[]], on the path
    of the iterator's constness, with the stored position as the index. *)
Lemma op_deref_call (D : cv) (a : addr) (c : Z) (w : world H) :
  op_deref (D := D) (MkCore (Some a) c) w
  = (s ← call_subscript D a c; mret (MkLvalue D a s)) w.
Proof. unfold op_deref; simpl. by rewrite HandledReturn_id. Qed.

(** C2 (as amended).  For every host object of length [n] of a class without a
    public [data_] and every [k] in [[0, n)] that is at most [INT_MAX]:
    [begin() + k] is the iterator at position [k] on that object, and
    dereferencing it is one call of the host's [operator[]] with index [k]
    whose result it returns as it is: the element designated is the slot the
    host returned, in the host object itself. *)
Theorem addressing_law (this : addr) (d : H) (k : Z) (w : world H) :
  heap w !! this = Some d → 0 ≤ k < Length d → k ≤ INT_MAX →
  For.begin no_data_ this w = Done (inr (MkCore (Some this) 0)) w
  ∧ For.begin_const no_data_ this w = Done (inr (MkCore (Some this) 0)) w
  ∧ ∀ D : cv,
      op_plus (D := D) (MkCore (Some this) 0) k = Some (MkCore (Some this) k)
      ∧ op_deref (D := D) (MkCore (Some this) k) w
        = (s ← call_subscript D this k; mret (MkLvalue D this s)) w.
Proof.
  intros E Hk Hmax. split; [reflexivity|]. split; [reflexivity|].
  intros D. split; [|apply op_deref_call].
  rewrite op_plus_exact; [reflexivity|].
  apply in_int_spec; simpl. unfold INT_MIN. lia.
Qed.

(** C6.  [i[k]] is [*(i + k)]: for every iterator [i], offset [k] and state,
    the subscript has the outcome of adding [k] and dereferencing the sum (the
    same element of the same host object, after the same call into the host,
    or no defined result where the sum has none).  This holds for the
    synthesized iterator and for the iterator of the older header. *)
Theorem subscript_equivalence :
  (∀ (D : cv) (i : IteratorCore D) (k : Z) (w : world H),
     op_subscript i k w = (j ← defined (op_plus i k); op_deref j) w)
  ∧ (∀ (D : cv) (i j : IteratorCore D) (k : Z) (w : world H),
     op_plus i k = Some j → op_subscript i k w = op_deref j w)
  ∧ (∀ (S : cv) (i : Iterable.Iterator S) (k : Z) (w : world H),
     Iterable.op_subscript i k w = Iterable.op_deref (Iterable.op_plus i k) w).
Proof.
  split; [reflexivity|]. split.
  - intros D i j k w Hj. unfold op_subscript. by rewrite Hj.
  - intros S [a c] k w.
    unfold Iterable.op_subscript, Iterable.op_deref, Iterable.op_plus, Iterable.ctor; simpl.
    by rewrite to_uint64_idemp.
Qed.

End Synthesized.

Lemma addressing_law_witness :
  let w : world Hosts.vec := MkWorld {[1%positive := [10; 20; 30; 40]]} [] in
  op_plus (D := Mutable) (MkCore (Some 1%positive) 0) 2 = Some (MkCore (Some 1%positive) 2)
  ∧ value_of (op_deref (D := Mutable) (MkCore (Some 1%positive) 2) w)
    = Done (MkLvalue Mutable 1%positive 2) tt.
Proof.
  intros w.
  assert (E : heap w !! 1%positive = Some [10; 20; 30; 40]) by reflexivity.
  assert (Hk : 0 ≤ 2 < Length [10; 20; 30; 40]) by (vm_compute; split; congruence).
  assert (Hmax : 2 ≤ INT_MAX) by (vm_compute; discriminate).
  destruct (addressing_law (NativeIt := Empty_set) 1%positive _ 2 w E Hk Hmax)
    as (_ & _ & Hd).
  destruct (Hd Mutable) as [Hplus Hderef].
  split; [exact Hplus|]. exact (eq_trans (f_equal value_of Hderef) eq_refl).
Defined.

Lemma subscript_equivalence_witness :
  let w : world Hosts.vec := MkWorld {[1%positive := [10; 20; 30; 40]]} [] in
  let i : IteratorCore Mutable := MkCore (Some 1%positive) 1 in
  let j : IteratorCore Mutable := MkCore (Some 1%positive) 3 in
  op_plus i 2 = Some j ∧ op_subscript i 2 w = op_deref j w.
Proof.
  intros w i j.
  destruct (subscript_equivalence (H := Hosts.vec)) as (_ & Hsame & _).
  split; [reflexivity|]. exact (Hsame Mutable i j 2 w eq_refl).
Defined.

(** C2, as stated, fails: on a host object of length [2^31 + 1] the offset
    [k = 2^31] lies in [[0, n)], but [begin() + k] is at position [-2^31], so
    dereferencing it asks the host for index [-2^31] and yields that element,
    not the element the host's [operator[]] returns for index [k]. *)
Lemma addressing_law_fails_beyond_int :
  let t := Hosts.MkTable (2 ^ 31 + 1) ∅ in
  let w : world Hosts.table := MkWorld {[1%positive := t]} [] in
  let k := 2 ^ 31 in
  let b : Iterator Mutable := MkCore (Some 1%positive) 0 in
  0 ≤ k < Length t
  ∧ value_of (For.begin (NativeIt := Empty_set) None 1%positive w) = Done (inr b) tt
  ∧ op_plus b k = Some (MkCore (Some 1%positive) (- 2 ^ 31))
  ∧ value_of ((j ← defined (op_plus b k); op_deref j) w)
    = Done (MkLvalue Mutable 1%positive (- 2 ^ 31)) tt
  ∧ value_of ((s ← call_subscript Mutable 1%positive k; mret (MkLvalue Mutable 1%positive s)) w)
    = Done (MkLvalue Mutable 1%positive (2 ^ 31)) tt
  ∧ value_of ((j ← defined (op_plus b k); op_deref j) w)
    ≠ value_of ((s ← call_subscript Mutable 1%positive k;
                 mret (MkLvalue Mutable 1%positive s)) w).
Proof.
  intros t w k b. split; [by vm_compute|].
  repeat split; try reflexivity. vm_compute. discriminate.
Qed.

End Addressing.

(** ** The [int] position against [std::ptrdiff_t] offsets *)
Module Narrowing.
Import CxxFacts CoreFacts Detail Run.

Section Synthesized.
Context {H : Type} `{Host H} {NativeIt : Type}.

Local Abbreviation no_data_ := (None : option (PubContainer H NativeIt)).

Lemma nonneg_in_int (z : Z) : 0 ≤ z → in_int z = true ↔ z ≤ INT_MAX.
Proof. intros Hz. rewrite in_int_spec. unfold INT_MIN. lia. Qed.

(** C10.  The position is an [int], the offsets are [std::ptrdiff_t].  For
    every iterator at position [p] and every offset [k] (whose sum [p + k]
    does not overflow [std::ptrdiff_t]), [i + k] and [i += k] store the
    position [to_int (p + k)]: an [int] that differs from [p + k] by a
    multiple of [2^32], and that is [p + k] itself exactly when [p + k] is
    representable as [int].  Consequently, on a host object of length [n]:
    [begin() + k] is at position [k] exactly when [k] is at most [INT_MAX];
    [end()] is at position [n], and [end() - begin()] is [n], exactly when
    [n] is at most [INT_MAX]. *)
Theorem int_position_narrowing :
  (∀ (D : cv) (i : IteratorCore D) (k : Z),
     in_ptrdiff (current_ i + k) = true →
     let j := MkCore (data_ i) (to_int (current_ i + k)) in
     op_plus i k = Some j ∧ op_plus_assign i k = Some (j, j)
     ∧ in_int (current_ j) = true
     ∧ current_ j mod 2 ^ 32 = (current_ i + k) mod 2 ^ 32
     ∧ (current_ j = current_ i + k ↔ in_int (current_ i + k) = true))
  ∧ (∀ (D : cv) (this : addr) (k : Z),
     0 ≤ k → in_ptrdiff k = true →
     ∃ j, op_plus (D := D) (MkCore (Some this) 0) k = Some j
          ∧ (current_ j = k ↔ k ≤ INT_MAX))
  ∧ (∀ (this : addr) (d : H) (w : world H),
     heap w !! this = Some d → 0 ≤ Length d →
     ∃ (e : Iterator Mutable) (w' : world H),
       For.end_ no_data_ this w = Done (inr e) w'
       ∧ (current_ e = Length d ↔ Length d ≤ INT_MAX)
       ∧ (op_diff e (MkCore (Some this) 0) = Some (Length d) ↔ Length d ≤ INT_MAX)).
Proof.
  split; [|split].
  - intros D i k Hp j. split; [by apply op_plus_Some|]. split.
    { rewrite op_plus_assign_plus. by rewrite (proj2 (op_plus_Some i k j)). }
    simpl. split; [apply to_int_in_int|]. split; [apply to_int_congr | apply to_int_fixed].
  - intros D this k Hk Hp. eexists. split.
    { apply op_plus_Some. split; [exact Hp | reflexivity]. }
    simpl. rewrite to_int_fixed. by apply nonneg_in_int.
  - intros this d w E Hn.
    destruct (EntryPoints.end_position (NativeIt := NativeIt) this d w E) as [He _].
    eexists _, _. split; [exact He|]. simpl.
    rewrite <- (nonneg_in_int _ Hn), <- to_int_fixed. split; [reflexivity|].
    rewrite op_diff_Some; simpl. rewrite Z.sub_0_r. split; [intros [_ Hd]; by symmetry|].
    intros Hfix. split; [apply to_int_in_int | by symmetry].
Qed.

End Synthesized.

Lemma int_position_narrowing_witness :
  let i : IteratorCore Mutable := MkCore (Some 1%positive) 0 in
  in_ptrdiff (current_ i + 2 ^ 31) = true
  ∧ op_plus i (2 ^ 31) = Some (MkCore (Some 1%positive) (- 2 ^ 31))
  ∧ op_plus i 7 = Some (MkCore (Some 1%positive) 7).
Proof.
  intros i.
  destruct (int_position_narrowing (H := Hosts.vec) (NativeIt := Empty_set))
    as (Hplus & _ & _).
  split; [reflexivity|]. split.
  - exact (proj1 (Hplus Mutable i (2 ^ 31) eq_refl)).
  - exact (proj1 (Hplus Mutable i 7 eq_refl)).
Defined.

End Narrowing.

(** ** Which operations reach the host *)
Module Frame.
Import CxxFacts CoreFacts Detail Run Ops.

Section Invoke.
Context {H : Type} `{Host H} {D : cv}.
Implicit Types (m : method D) (this : IteratorCore D) (w : world H).

Lemma defined_bind {A B : Type} (o : option A) (f : A → M H B) w :
  (x ← defined o; f x) w = match o with Some a => f a w | None => Undefined end.
Proof. by destruct o. Qed.

(** The host pointer of the iterator object after a member that modifies it. *)
Lemma modifier_keeps_data_ this (r this' : IteratorCore D) :
  (op_preinc this = Some (r, this') ∨ op_postinc this = Some (r, this')
   ∨ op_predec this = Some (r, this') ∨ op_postdec this = Some (r, this')
   ∨ (∃ n, op_plus_assign this n = Some (r, this'))
   ∨ (∃ n, op_minus_assign this n = Some (r, this'))) →
  data_ this' = data_ this.
Proof.
  unfold op_preinc, op_postinc, op_predec, op_postdec, op_plus_assign, op_minus_assign,
    incr, decr.
  intros [E|[E|[E|[E|[[n E]|[n E]]]]]];
    repeat match type of E with
    | context [int_expr ?z] => destruct (int_expr z)
    | context [ptrdiff_expr ?z] => destruct (ptrdiff_expr z)
    end; simpl in E; try discriminate; by injection E as <- <-.
Qed.

(** A member that dereferences completes with one more call recorded: the
    host's [operator[]] on the object the iterator points to. *)
Lemma access_calls_host m this w (r : result D) this' w' :
  navigation m = false → invoke m this w = Done (r, this') w' →
  this' = this
  ∧ ∃ (a : addr) (k : Z) (d d' : H) (s : slot),
      data_ this = Some a ∧ heap w !! a = Some d ∧ subscript D k d = Some (s, d')
      ∧ r = RElement (MkLvalue D a s)
      ∧ w' = MkWorld (<[a := d']> (heap w)) (calls w ++ [CallSubscript a D k]).
Proof.
  assert (Hderef : ∀ (j : IteratorCore D) (x : lvalue) (w0 : world H),
            op_deref j w = Done x w0 →
            ∃ a d d' s, data_ j = Some a ∧ heap w !! a = Some d
              ∧ subscript D (current_ j) d = Some (s, d') ∧ x = MkLvalue D a s
              ∧ w0 = MkWorld (<[a := d']> (heap w)) (calls w ++ [CallSubscript a D (current_ j)])).
  { intros [p c] x w0. destruct p as [a|]; [|discriminate].
    rewrite Addressing.op_deref_call. unfold mbind, M_bind.
    destruct (call_subscript D a c w) as [s w1| |] eqn:E; try discriminate.
    intros [= <- <-]. apply call_subscript_Done in E as (d & d' & ? & ? & ->).
    exists a, d, d', s. auto. }
  destruct m; try discriminate; intros _; unfold invoke, op_arrow, op_to_pointer, op_arrow.
  1-2, 4:
    unfold mbind at 1, M_bind at 1;
    destruct (op_deref this w) as [x w0| |] eqn:E; try discriminate;
    intros [= <- <- <-]; split; [reflexivity|];
    destruct (Hderef _ _ _ E) as (a & d & d' & s & ? & ? & ? & ? & ?);
    exists a, (current_ this), d, d', s; subst; auto 10.
  unfold op_subscript. unfold mbind at 1, M_bind at 1. rewrite defined_bind.
  destruct (op_plus this n) as [j|] eqn:Ej; [|discriminate].
  destruct (op_deref j w) as [x w0| |] eqn:E; try discriminate.
  intros [= <- <- <-]. split; [reflexivity|].
  destruct (Hderef _ _ _ E) as (a & d & d' & s & Ha & ? & ? & ? & ?).
  apply op_plus_Some in Ej as [_ ->]. simpl in *.
  exists a, (to_int (current_ this + n)), d, d', s. subst; auto 10.
Qed.

End Invoke.

(** A navigation or comparison member is a function of the iterator alone:
    it has a result [o] (none where the arithmetic is undefined) that is the
    same in every state of every host class, and it completes in the state it
    started in. *)
Lemma navigation_pure {D : cv} (m : method D) (this : IteratorCore D) :
  navigation m = true →
  ∃ o : option (result D * IteratorCore D),
    (∀ r this', o = Some (r, this') → data_ this' = data_ this)
    ∧ ∀ (H : Type) (HC : Host H) (w : world H),
        invoke m this w = match o with Some x => Done x w | None => Undefined end.
Proof.
  destruct m; try discriminate; intros _; unfold invoke, op_plus_left.
  1-4, 8-9:
    match goal with
    | |- context [defined ?o] =>
        exists (x ← o; Some (RIterator x.1, x.2));
        destruct o as [[r0 t0]|] eqn:E; simpl
    end;
    (split;
     [ intros r this' [= <- <-] || discriminate;
       eapply modifier_keeps_data_; eauto 10
     | intros H HC w; by rewrite defined_bind ]).
  1-3:
    match goal with
    | |- context [defined ?o] =>
        exists (x ← o; Some (RIterator x, this)); destruct o as [r0|] eqn:E; simpl
    end;
    (split;
     [ intros r this' [= <- <-] || discriminate; reflexivity
     | intros H HC w; by rewrite defined_bind ]).
  1: exists (z ← op_diff this other; Some (RDifference z, this));
     destruct (op_diff this other) as [z|] eqn:E; simpl;
     (split;
      [ intros r this' [= <- <-] || discriminate; reflexivity
      | intros H HC w; by rewrite defined_bind ]).
  all: eexists (Some (_, this)); split;
    [ intros r this' [= <- <-]; reflexivity | intros H HC w; reflexivity ].
Qed.

(** C9.  Every navigation and comparison member of the synthesized iterator
    (pre- and post-increment and -decrement, adding and subtracting an offset,
    [+=] and [-=], iterator difference, [==], [!=], [<], [>], [<=], [>=])
    is a function of the iterator alone: where it is defined it completes in
    the very state it started in (no host object changed, no call into a host
    recorded), leaves the host pointer of the iterator as it was, and gives
    the same result in every state of every host class.  Dereference, member
    access, subscript and the pointer conversion built on member access are
    the members that reach the host: each completes after exactly one call of
    [operator[]] on the object the iterator points to, which may change that
    object and no other, and leaves the iterator itself unchanged. *)
Theorem host_untouched_by_navigation (D : cv) (m : method D) (this : IteratorCore D) :
  (navigation m = true →
     (∀ (H : Type) (HC : Host H) (w : world H),
        invoke m this w = Undefined
        ∨ ∃ r this', invoke m this w = Done (r, this') w ∧ data_ this' = data_ this)
     ∧ (∀ (H1 H2 : Type) (HC1 : Host H1) (HC2 : Host H2) (w1 : world H1) (w2 : world H2),
          value_of (invoke m this w1) = value_of (invoke m this w2)))
  ∧ (navigation m = false →
     ∀ (H : Type) (HC : Host H) (w w' : world H) (r : result D) (this' : IteratorCore D),
       invoke m this w = Done (r, this') w' →
       this' = this
       ∧ ∃ (a : addr) (k : Z) (d d' : H) (s : slot),
           data_ this = Some a ∧ heap w !! a = Some d ∧ subscript D k d = Some (s, d')
           ∧ r = RElement (MkLvalue D a s)
           ∧ w' = MkWorld (<[a := d']> (heap w)) (calls w ++ [CallSubscript a D k])).
Proof.
  split.
  - intros Hnav. destruct (navigation_pure m this Hnav) as (o & Hdata & Hrun). split.
    + intros H HC w. rewrite Hrun. destruct o as [[r this']|]; [right | by left].
      exists r, this'. split; [reflexivity | by apply (Hdata r)].
    + intros H1 H2 HC1 HC2 w1 w2. rewrite !Hrun. by destruct o.
  - intros Hnav H HC w w' r this'. by apply access_calls_host.
Qed.

Lemma host_untouched_by_navigation_witness :
  let w : world Hosts.vec := MkWorld {[1%positive := [10; 20; 30; 40]]} [] in
  let i : IteratorCore Mutable := MkCore (Some 1%positive) 1 in
  invoke (Plus 2) i w = Done (RIterator (MkCore (Some 1%positive) 3), i) w
  ∧ ∃ w', invoke Deref i w = Done (RElement (MkLvalue Mutable 1%positive 1), i) w'
          ∧ calls w' = [CallSubscript 1%positive Mutable 1].
Proof.
  intros w i.
  destruct (host_untouched_by_navigation Mutable (Plus 2) i) as [Hnav _].
  destruct (Hnav eq_refl) as [Hsame _].
  destruct (host_untouched_by_navigation Mutable Deref i) as [_ Hacc].
  split.
  - destruct (Hsame _ _ w) as [Hu | (r & this' & Hd & _)]; [discriminate Hu|].
    reflexivity.
  - assert (E : invoke Deref i w
                = Done (RElement (MkLvalue Mutable 1%positive 1), i)
                    (MkWorld (<[1%positive := [10; 20; 30; 40]]> (heap w))
                       [CallSubscript 1%positive Mutable 1])) by reflexivity.
    destruct (Hacc eq_refl _ _ w _ _ _ E) as (_ & a & k & d & d' & s & _).
    eexists. split; [exact E | reflexivity].
Defined.

End Frame.

(** ** Constness of the elements an iterator yields *)
Module Constness.
Import CxxFacts CoreFacts Detail Run.

Section Elements.
Context {H : Type} `{Host H}.

(** The element a synthesized iterator yields, by any of its accessing
    members, has the constness of the iterator's container type. *)
Lemma element_constness (D : cv) (i : IteratorCore D) (k : Z) (w w' : world H) (r : lvalue) :
  op_deref i w = Done r w' ∨ op_arrow i w = Done r w' ∨ op_subscript i k w = Done r w'
  ∨ op_to_pointer i w = Done r w' →
  lv_const r = D.
Proof.
  assert (Hd : ∀ (j : IteratorCore D) w0, op_deref j w0 = Done r w' → lv_const r = D).
  { intros [[a|] c] w0; [|discriminate]. rewrite Addressing.op_deref_call.
    unfold mbind, M_bind. destruct (call_subscript D a c w0); try discriminate.
    by intros [= <- _]. }
  unfold op_arrow, op_to_pointer, op_arrow, op_subscript.
  intros [E|[E|[E|E]]]; try by eapply Hd.
  rewrite Frame.defined_bind in E. destruct (op_plus i k); [by eapply Hd | discriminate].
Qed.



End Elements.



End Constness.

(** ** A host with a public [data_] *)
Module Delegation.
Import CxxFacts CoreFacts Detail Run.

Section Member.
Context {H : Type} `{Host H} {NativeIt : Type}.
Variable data_ : PubContainer H NativeIt.
Variable n_ne : NativeIt → NativeIt → bool.
Variable n_inc : NativeIt → M H NativeIt.
Variable n_deref : NativeIt → M H lvalue.

Lemma for_host_for_member (fuel : nat) (this : addr) (d : H) (w : world H) :
  heap w !! this = Some d →
  for_host (Some data_) n_ne n_inc n_deref fuel this w
  = for_member n_ne n_inc n_deref fuel data_ this w.
Proof.
  intros E. pose proof (object_Done this d w E) as Ho.
  unfold for_host, for_member, For.begin, For.end_.
  rewrite (bind_Done _ (λ d0, range_loop _ _ _ _ _ _) _ _ _ Ho).
  unfold mbind at 1, M_bind at 1. rewrite (bind_Done _ _ _ _ _ Ho).
  unfold mret at 1, M_ret at 1. unfold mbind at 1, M_bind at 1.
  rewrite (bind_Done _ _ _ _ _ Ho). reflexivity.
Qed.

(** The entry points on a host class with a public member [data_]: every
    entry point of [For] returns the iterator that the same call on [data_]
    returns
    ([data_.begin()] or [data_.end()], of the mutable member on the mutable
    path and of the const member on the constant paths), tagged as an iterator
    of the member and not as a synthesized one; it makes no call into the host
    and leaves the state as it was.  Iterating the host with a range-based
    [for] therefore has the outcome of iterating [data_] directly: the same
    elements in the same order, and the same final state. *)
Lemma delegation_transparency (this : addr) (d : H) (w : world H) :
  heap w !! this = Some d →
  For.HasPubContainer (Some data_) = true
  ∧ (For.begin (Some data_) this w = Done (inl (c_begin data_ Mutable this d)) w
     ∧ For.end_ (Some data_) this w = Done (inl (c_end data_ Mutable this d)) w)
  ∧ (For.begin_const (Some data_) this w = Done (inl (c_begin data_ Const this d)) w
     ∧ For.end_const (Some data_) this w = Done (inl (c_end data_ Const this d)) w
     ∧ For.cbegin (Some data_) this w = Done (inl (c_begin data_ Const this d)) w
     ∧ For.cend (Some data_) this w = Done (inl (c_end data_ Const this d)) w)
  ∧ ∀ fuel : nat,
      for_host (Some data_) n_ne n_inc n_deref fuel this w
      = for_member n_ne n_inc n_deref fuel data_ this w.
Proof.
  intros E. pose proof (object_Done this d w E) as Ho.
  assert (Hret : ∀ x : NativeIt, (d0 ← object this; mret (inl x)) w
                                 = Done (inl (B := Iterator Mutable) x) w
                                 ∧ (d0 ← object this; mret (inl x)) w
                                 = Done (inl (B := Iterator Const) x) w).
  { intros x. by rewrite !(bind_Done _ _ _ _ _ Ho). }
  split; [reflexivity|].
  unfold For.cbegin, For.cend, For.begin, For.end_, For.begin_const, For.end_const.
  rewrite !(bind_Done _ _ _ _ _ Ho).
  split; [by split|]. split; [by repeat split|].
  intros fuel. by apply for_host_for_member with d.
Qed.

End Member.

(** *** The loop, one iteration at a time *)
Section Loop.
Context {H It V : Type}.
Variable ne : It → It → bool.
Variable inc : It → M H It.
Variable deref : It → M H V.

Lemma range_loop_stop (fuel : nat) (b e : It) (w : world H) :
  ne b e = false → range_loop ne inc deref fuel b e w = Done (Some []) w.
Proof. intros E. destruct fuel; simpl; by rewrite E. Qed.

Lemma range_loop_step (fuel : nat) (b b' e : It) (x : V) (r : option (list V))
    (w w1 w2 w3 : world H) :
  ne b e = true → deref b w = Done x w1 → inc b w1 = Done b' w2 →
  range_loop ne inc deref fuel b' e w2 = Done r w3 →
  range_loop ne inc deref (S fuel) b e w = Done (cons x <$> r) w3.
Proof.
  intros E Hx Hb Hr. simpl. rewrite E.
  unfold mbind, M_bind. by rewrite Hx, Hb, Hr.
Qed.

End Loop.

(** *** The scenario host, with its buffer public and with it private

    The class [vec] presents through [Length()] and [operator[]] exactly the
    elements of its buffer.  Whether the buffer is a public [data_] (the
    shortcut is taken) or not (iterators are synthesized) then makes no
    difference to the elements a range-based [for] visits, for a buffer of at
    most [INT_MAX] elements. *)
Section ScenarioHost.
Import Hosts.

Lemma vec_subscript_in_range (q : cv) (k : Z) (d : vec) :
  0 ≤ k < Z.of_nat (length d) → subscript q k d = Some (k, d).
Proof.
  intros Hk. simpl.
  destruct (Z.leb_spec 0 k), (Z.ltb_spec k (Z.of_nat (length d))); simpl; try lia.
  reflexivity.
Qed.

Lemma world_eta {H : Type} (w : world H) : MkWorld (heap w) (calls w) = w.
Proof. by destruct w. Qed.

Lemma synthesized_loop_vec (this : addr) (d : vec) (len : nat) :
  ∀ (p : Z) (fuel : nat) (w : world vec),
    heap w !! this = Some d → 0 ≤ p → p + Z.of_nat len = Z.of_nat (length d) →
    Z.of_nat (length d) ≤ INT_MAX → (len ≤ fuel)%nat →
    ∃ cs : list call,
      synthesized_loop (D := Mutable) fuel
        (MkCore (Some this) p) (MkCore (Some this) (Z.of_nat (length d))) w
      = Done (Some (MkLvalue Mutable this <$> seqZ p (Z.of_nat len)))
             (MkWorld (heap w) (calls w ++ cs)).
Proof.
  induction len as [|len IH]; intros p fuel w E Hp Hlen Hmax Hfuel.
  - exists []. unfold synthesized_loop. rewrite range_loop_stop.
    + by rewrite app_nil_r, world_eta.
    + unfold op_ne; simpl. rewrite negb_false_iff. apply Z.eqb_eq. lia.
  - destruct fuel as [|fuel]; [lia|].
    set (w1 := MkWorld (heap w) (calls w ++ [CallSubscript this Mutable p])).
    destruct (IH (p + 1) fuel w1) as [cs Hcs]; try (simpl; lia); [exact E|].
    exists (CallSubscript this Mutable p :: cs). unfold synthesized_loop in *.
    erewrite (range_loop_step _ _ _ fuel _ (MkCore (Some this) (p + 1)) _
               (MkLvalue Mutable this p) _ w w1 w1 _); first last.
    + exact Hcs.
    + unfold op_preinc, incr; simpl. unfold int_expr.
      assert (Hin : in_int (p + 1) = true).
      { apply in_int_spec. unfold INT_MIN. lia. }
      by rewrite Hin.
    + rewrite Addressing.op_deref_call.
      unfold mbind, M_bind, call_subscript. rewrite E.
      rewrite vec_subscript_in_range by lia.
      unfold w1. by rewrite (insert_id _ _ _ E).
    + unfold op_ne; simpl. rewrite negb_true_iff. apply Z.eqb_neq. lia.
    + rewrite (seqZ_cons p) by lia. simpl.
      replace (Z.pred (Z.of_nat (S len))) with (Z.of_nat len) by lia.
      replace (Z.succ p) with (p + 1) by lia.
      unfold w1; simpl. by rewrite <- app_assoc.
Qed.

Lemma buffer_loop_vec (q : cv) (this : addr) (d : vec) (len : nat) :
  ∀ (p : Z) (fuel : nat) (w : world vec),
    heap w !! this = Some d → 0 ≤ p → p + Z.of_nat len = Z.of_nat (length d) →
    (len ≤ fuel)%nat →
    range_loop buffer_ne buffer_inc buffer_deref fuel
      (MkBufferIt q this p) (MkBufferIt q this (Z.of_nat (length d))) w
    = Done (Some (MkLvalue q this <$> seqZ p (Z.of_nat len))) w.
Proof.
  induction len as [|len IH]; intros p fuel w E Hp Hlen Hfuel.
  - rewrite range_loop_stop; [reflexivity|].
    unfold buffer_ne; simpl. rewrite negb_false_iff. apply Z.eqb_eq. lia.
  - destruct fuel as [|fuel]; [lia|].
    erewrite (range_loop_step _ _ _ fuel _ (MkBufferIt q this (p + 1)) _
               (MkLvalue q this p) _ w w w _); first last.
    + apply IH; try lia. exact E.
    + reflexivity.
    + unfold buffer_deref; simpl. rewrite (bind_Done _ _ _ _ _ (object_Done this d w E)).
      destruct (Z.leb_spec 0 p), (Z.ltb_spec p (Z.of_nat (length d))); simpl; try lia.
      reflexivity.
    + unfold buffer_ne; simpl. rewrite negb_true_iff. apply Z.eqb_neq. lia.
    + rewrite (seqZ_cons p) by lia. simpl.
      replace (Z.pred (Z.of_nat (S len))) with (Z.of_nat len) by lia.
      by replace (Z.succ p) with (p + 1) by lia.
Qed.

(** With the buffer private the loop runs on synthesized iterators, with
    the buffer public on the buffer's own; both visit the elements at
    the slots 0, 1, ..., [length d - 1] of the host object, and neither changes
    a host object. *)
Lemma shortcut_same_elements (this : addr) (d : vec) (fuel : nat) (w : world vec) :
  heap w !! this = Some d → Z.of_nat (length d) ≤ INT_MAX → (length d ≤ fuel)%nat →
  let elements := MkLvalue Mutable this <$> seqZ 0 (Z.of_nat (length d)) in
  (∃ cs, for_host None buffer_ne buffer_inc buffer_deref fuel this w
         = Done (Some elements) (MkWorld (heap w) (calls w ++ cs)))
  ∧ for_host (Some vec_data_) buffer_ne buffer_inc buffer_deref fuel this w
    = Done (Some elements) w.
Proof.
  intros E Hmax Hfuel elements. split.
  - set (w1 := MkWorld (heap w) (calls w ++ [CallLength this])).
    destruct (synthesized_loop_vec this d (length d) 0 fuel w1) as [cs Hcs];
      try (simpl; lia); [exact E|].
    exists (CallLength this :: cs).
    unfold for_host, For.begin, For.end_.
    unfold mbind at 1, M_bind at 1. unfold mret at 1, M_ret at 1.
    unfold mbind at 1, M_bind at 1.
    rewrite (bind_Done _ _ _ _ _ (call_Length_Done this d w E)).
    unfold mret at 1, M_ret at 1.
    assert (Hn : to_int (Length d) = Z.of_nat (length d)).
    { apply to_int_id, in_int_spec. simpl. unfold INT_MIN. lia. }
    unfold ctor. rewrite Hn. change (to_int 0) with 0.
    fold w1. rewrite Hcs. unfold w1; simpl. by rewrite <- app_assoc.
  - rewrite (for_host_for_member vec_data_ buffer_ne buffer_inc buffer_deref
               fuel this d w E).
    unfold for_member.
    rewrite (bind_Done _ _ _ _ _ (object_Done this d w E)).
    by apply buffer_loop_vec; try lia.
Qed.

End ScenarioHost.

(** Scenario S6: a host whose public [data_] is the buffer [7, 8, 9]; iterating
    the host visits the three elements of the buffer in order, and they hold
    7, 8 and 9. *)
Lemma delegation_transparency_witness :
  let w : world Hosts.vec := MkWorld {[1%positive := [7; 8; 9]]} [] in
  let elements := [MkLvalue Mutable 1%positive 0; MkLvalue Mutable 1%positive 1;
                   MkLvalue Mutable 1%positive 2] in
  for_host (Some Hosts.vec_data_) Hosts.buffer_ne Hosts.buffer_inc Hosts.buffer_deref
    3 1%positive w
  = Done (Some elements) w
  ∧ value_of (mapM load elements w) = Done [7; 8; 9] tt.
Proof.
  intros w elements.
  assert (E : heap w !! 1%positive = Some [7; 8; 9]) by reflexivity.
  destruct (delegation_transparency Hosts.vec_data_ Hosts.buffer_ne Hosts.buffer_inc
              Hosts.buffer_deref 1%positive _ w E) as (_ & _ & _ & Hfor).
  split; [rewrite Hfor; reflexivity | reflexivity].
Defined.

End Delegation.

(** ** The scenarios of the specification on the scenario host *)
Module Scenarios.
Import Detail Hosts.

(** S1: iterating [10, 20, 30, 40] visits the four elements, whose sum is 100;
    the distance from [begin()] to [end()] is 4. *)
Example S1_sum :
  let w := alone [10; 20; 30; 40] in
  value_of (for_host None buffer_ne buffer_inc buffer_deref 4 1%positive w)
  = Done (Some (elements_upto 4)) tt
  ∧ value_of (mapM (load (H := vec)) (elements_upto 4) w) = Done [10; 20; 30; 40] tt
  ∧ foldr Z.add 0 [10; 20; 30; 40] = 100
  ∧ op_diff (D := Mutable) (MkCore (Some 1%positive) 4) (MkCore (Some 1%positive) 0) = Some 4.
Proof. repeat split; reflexivity. Qed.

(** S2: [*(begin() + 2)] is 30, [*(end() - 1)] is 40, and
    [(end() - 1) - (begin() + 1)] is 2. *)
Example S2_random_access :
  let w := alone [10; 20; 30; 40] in
  let b : Iterator Mutable := MkCore (Some 1%positive) 0 in
  let e : Iterator Mutable := MkCore (Some 1%positive) 4 in
  value_of ((j ← defined (op_plus b 2); r ← op_deref j; load (H := vec) r) w) = Done 30 tt
  ∧ value_of ((j ← defined (op_minus e 1); r ← op_deref j; load (H := vec) r) w) = Done 40 tt
  ∧ (x ← op_minus e 1; y ← op_plus b 1; op_diff x y) = Some 2.
Proof. repeat split; reflexivity. Qed.

(** S5: on the empty host [begin() == end()], the distance is 0 and the loop
    visits nothing. *)
Example S5_empty :
  let w := alone [] in
  value_of (For.end_ (NativeIt := buffer_it) None 1%positive w)
  = Done (inr (MkCore (Some 1%positive) 0)) tt
  ∧ op_eq (D := Mutable) (MkCore (Some 1%positive) 0) (MkCore (Some 1%positive) 0) = true
  ∧ op_diff (D := Mutable) (MkCore (Some 1%positive) 0) (MkCore (Some 1%positive) 0) = Some 0
  ∧ value_of (for_host None buffer_ne buffer_inc buffer_deref 0 1%positive w)
    = Done (Some []) tt.
Proof. repeat split; reflexivity. Qed.

End Scenarios.

(** ** Further laws of the position arithmetic *)
Module Offsets.
Import CxxFacts CoreFacts Detail.

Lemma legacy_eq {S : cv} (i j : Iterable.Iterator S) :
  Iterable.self_ i = Iterable.self_ j → Iterable.current_ i = Iterable.current_ j → i = j.
Proof. destruct i, j; simpl; congruence. Qed.

(** X1.  The several spellings of an offset agree, in both iterator types:
    [n + i] is [i + n]; [i += n] leaves in [i], and returns, the iterator
    that [i + n] returns, and [i -= n] the one that [i - n] returns (with the
    same undefined cases); [i - n] is [i + (-n)]. *)
Theorem offset_forms_agree :
  (∀ (D : cv) (i : IteratorCore D) (n : Z),
     op_plus_left n i = op_plus i n
     ∧ op_plus_assign i n = (j ← op_plus i n; Some (j, j))
     ∧ op_minus_assign i n = (j ← op_minus i n; Some (j, j))
     ∧ op_minus i n = op_plus i (- n))
  ∧ (∀ (S : cv) (i : Iterable.Iterator S) (n : Z),
     Iterable.op_plus_assign i n = (Iterable.op_plus i n, Iterable.op_plus i n)
     ∧ Iterable.op_minus_assign i n = (Iterable.op_minus i n, Iterable.op_minus i n)
     ∧ Iterable.op_minus i n = Iterable.op_plus i (- n)).
Proof.
  split.
  - intros D i n. split; [reflexivity|].
    split; [apply op_plus_assign_plus|]. split; [apply op_minus_assign_minus|].
    unfold op_minus, op_plus. by rewrite Z.add_opp_r.
  - intros S [a c] n.
    unfold Iterable.op_plus_assign, Iterable.op_minus_assign, Iterable.op_plus,
      Iterable.op_minus, Iterable.ctor; simpl.
    rewrite !to_uint64_idemp. repeat split.
    f_equal. by rewrite to_uint64_minus, to_uint64_plus, Z.add_opp_r.
Qed.

(** X2.  Offsets add up.  In the synthesized iterator, whenever [i + a],
    [(i + a) + b] and [i + (a + b)] are all defined, the last two are the same
    iterator, also when a position on the way did not fit [int]; they are all
    defined, and at position [p + a + b], when [p + a] and [p + a + b] fit
    [int].  In the iterator of the older header [(i + a) + b] is [i + (a + b)]
    for all offsets. *)
Theorem offsets_add_up :
  (∀ (D : cv) (i j1 j2 j3 : IteratorCore D) (a b : Z),
     op_plus i a = Some j1 → op_plus j1 b = Some j2 → op_plus i (a + b) = Some j3 →
     j2 = j3)
  ∧ (∀ (D : cv) (i : IteratorCore D) (a b : Z),
     in_int (current_ i + a) = true → in_int (current_ i + a + b) = true →
     let j := MkCore (data_ i) (current_ i + a + b) in
     (j1 ← op_plus i a; op_plus j1 b) = Some j ∧ op_plus i (a + b) = Some j)
  ∧ (∀ (S : cv) (i : Iterable.Iterator S) (a b : Z),
     Iterable.op_plus (Iterable.op_plus i a) b = Iterable.op_plus i (a + b)).
Proof.
  split; [|split].
  - intros D i j1 j2 j3 a b H1 H2 H3.
    apply op_plus_Some in H1 as [_ ->]. apply op_plus_Some in H2 as [_ ->].
    apply op_plus_Some in H3 as [_ ->]. simpl.
    by rewrite to_int_plus_l, Z.add_assoc.
  - intros D i a b Ha Hab j. split.
    + rewrite (op_plus_exact i a Ha); simpl. by rewrite op_plus_exact.
    + rewrite op_plus_exact by (by rewrite Z.add_assoc). unfold j. by rewrite Z.add_assoc.
  - intros S [s c] a b.
    unfold Iterable.op_plus, Iterable.ctor; simpl. f_equal.
    rewrite !to_uint64_idemp, !to_uint64_plus.
    unfold to_uint64 at 2. unfold to_uint64. rewrite Zplus_mod_idemp_l.
    by rewrite Z.add_assoc.
Qed.

Lemma offsets_add_up_witness :
  let i : IteratorCore Mutable := MkCore (Some 1%positive) 0 in
  (j1 ← op_plus i (2 ^ 31); op_plus j1 (- 2 ^ 31)) = Some i
  ∧ (j1 ← op_plus i 2; op_plus j1 3) = Some (MkCore (Some 1%positive) 5).
Proof.
  intros i. destruct offsets_add_up as (Hsame & Hfit & _). split.
  - pose proof (Hsame Mutable i (MkCore (Some 1%positive) (- 2 ^ 31)) i i
                  (2 ^ 31) (- 2 ^ 31) eq_refl eq_refl eq_refl) as Heq.
    reflexivity.
  - exact (proj1 (Hfit Mutable i 2 3 eq_refl eq_refl)).
Defined.

(** X3.  [++i] against [i += 1], and [--i] against [i -= 1].  Where the
    increment is defined, [i += 1] does and returns the same.  At the largest
    position the two part: [current_++] overflows [int] and is undefined, while
    [current_ += 1] is computed in [std::ptrdiff_t] and converted, which leaves
    the iterator at [INT_MIN]; symmetrically at the smallest position [i -= 1]
    leaves it at [INT_MAX]. *)
Theorem increment_against_plus_one (D : cv) (i : IteratorCore D) :
  valid i →
  (∀ r i', op_preinc i = Some (r, i') → op_plus_assign i 1 = Some (r, i'))
  ∧ (∀ r i', op_predec i = Some (r, i') → op_minus_assign i 1 = Some (r, i'))
  ∧ (current_ i = INT_MAX →
     op_preinc i = None ∧ op_postinc i = None
     ∧ op_plus_assign i 1 = Some (MkCore (data_ i) INT_MIN, MkCore (data_ i) INT_MIN))
  ∧ (current_ i = INT_MIN →
     op_predec i = None ∧ op_postdec i = None
     ∧ op_minus_assign i 1 = Some (MkCore (data_ i) INT_MAX, MkCore (data_ i) INT_MAX)).
Proof.
  intros Hv. apply in_int_spec in Hv.
  split; [|split; [|split]].
  - intros r i'. unfold op_preinc. destruct (incr i) as [x|] eqn:E; [|discriminate].
    intros [= <- <-]. apply incr_Some in E as (? & ? & ->).
    rewrite op_plus_assign_plus, op_plus_exact; [reflexivity|].
    apply in_int_spec. lia.
  - intros r i'. unfold op_predec. destruct (decr i) as [x|] eqn:E; [|discriminate].
    intros [= <- <-]. apply decr_Some in E as (? & ? & ->).
    rewrite op_minus_assign_minus, op_minus_exact; [reflexivity|].
    apply in_int_spec. lia.
  - intros Hc. unfold op_preinc, op_postinc, incr, op_plus_assign. rewrite Hc.
    repeat split.
  - intros Hc. unfold op_predec, op_postdec, decr, op_minus_assign. rewrite Hc.
    repeat split.
Qed.

Lemma increment_against_plus_one_witness :
  let i : IteratorCore Mutable := MkCore (Some 1%positive) INT_MAX in
  valid i ∧ op_preinc i = None
  ∧ op_plus_assign i 1
    = Some (MkCore (Some 1%positive) INT_MIN, MkCore (Some 1%positive) INT_MIN).
Proof.
  intros i. assert (Hv : valid i) by reflexivity.
  destruct (increment_against_plus_one Mutable i Hv) as (_ & _ & Hmax & _).
  destruct (Hmax eq_refl) as (Hpre & _ & Hplus).
  split; [exact Hv|]. split; [exact Hpre | exact Hplus].
Defined.

End Offsets.

(** ** Difference, order and the range of positions *)
Module Distance.
Import CxxFacts CoreFacts Detail.

(** X4.  Between two iterators at non-negative positions, as the iterators
    from [begin()] to [end()] of a host of at most [INT_MAX] elements are, the
    iterator difference is
    always defined (the [int] subtraction cannot overflow) and is the
    difference of the positions; [i - j] is the negation of [j - i]; adding
    [j - i] to [i] gives the iterator at the position of [j]; and the sign of
    [j - i] decides the comparisons of [i] and [j]. *)
Theorem difference_laws (D : cv) (i j : IteratorCore D) :
  0 ≤ current_ i ≤ INT_MAX → 0 ≤ current_ j ≤ INT_MAX →
  let z := current_ j - current_ i in
  op_diff j i = Some z ∧ op_diff i j = Some (- z)
  ∧ op_plus i z = Some (MkCore (data_ i) (current_ j))
  ∧ op_minus j z = Some (MkCore (data_ j) (current_ i))
  ∧ (op_lt i j = true ↔ 0 < z) ∧ (op_eq i j = true ↔ z = 0) ∧ (op_gt i j = true ↔ z < 0).
Proof.
  intros Hi Hj z. unfold INT_MAX in *.
  assert (Hin : ∀ x, - 2 ^ 31 ≤ x ≤ 2 ^ 31 - 1 → in_int x = true).
  { intros x Hx. apply in_int_spec. unfold INT_MIN, INT_MAX. lia. }
  split; [apply op_diff_Some; split; [apply Hin; unfold z; lia | reflexivity]|].
  split; [apply op_diff_Some; split; [apply Hin; unfold z; lia | unfold z; lia]|].
  split.
  { rewrite op_plus_exact by (apply Hin; unfold z; lia). do 2 f_equal. unfold z. lia. }
  split.
  { rewrite op_minus_exact by (apply Hin; unfold z; lia). do 2 f_equal. unfold z. lia. }
  unfold op_lt, op_eq, op_gt, z. rewrite Z.ltb_lt, Z.eqb_eq, Z.gtb_ltb, Z.ltb_lt.
  repeat split; intros; lia.
Qed.

Lemma difference_laws_witness :
  let i : IteratorCore Mutable := MkCore (Some 1%positive) 1 in
  let j : IteratorCore Mutable := MkCore (Some 1%positive) 3 in
  op_diff j i = Some 2 ∧ op_diff i j = Some (- 2) ∧ op_plus i 2 = Some j.
Proof.
  intros i j.
  assert (Hi : 0 ≤ current_ i ≤ INT_MAX) by (vm_compute; split; discriminate).
  assert (Hj : 0 ≤ current_ j ≤ INT_MAX) by (vm_compute; split; discriminate).
  destruct (difference_laws Mutable i j Hi Hj) as (H1 & H2 & H3 & _).
  split; [exact H1|]. split; [exact H2 | exact H3].
Defined.

(** X5.  The six comparison operators are consistent with one another, in
    both iterator types: [!=] is the negation of [==], [<=] of [>], [>=] of
    [<]; [i > j] is [j < i]; [<=] is [<] or [==]; [<] is irreflexive and
    transitive, and [<=] is antisymmetric up to [==]. *)
Theorem comparison_operators_consistent :
  (∀ (D : cv) (i j k : IteratorCore D),
     op_ne i j = negb (op_eq i j) ∧ op_le i j = negb (op_gt i j)
     ∧ op_ge i j = negb (op_lt i j) ∧ op_gt i j = op_lt j i
     ∧ op_le i j = op_lt i j || op_eq i j
     ∧ op_lt i i = false
     ∧ (op_lt i j = true → op_lt j k = true → op_lt i k = true)
     ∧ (op_le i j = true → op_le j i = true → op_eq i j = true))
  ∧ (∀ (S : cv) (i j k : Iterable.Iterator S),
     Iterable.op_ne i j = negb (Iterable.op_eq i j)
     ∧ Iterable.op_le i j = negb (Iterable.op_gt i j)
     ∧ Iterable.op_ge i j = negb (Iterable.op_lt i j)
     ∧ Iterable.op_gt i j = Iterable.op_lt j i
     ∧ Iterable.op_le i j = Iterable.op_lt i j || Iterable.op_eq i j
     ∧ Iterable.op_lt i i = false
     ∧ (Iterable.op_lt i j = true → Iterable.op_lt j k = true → Iterable.op_lt i k = true)
     ∧ (Iterable.op_le i j = true → Iterable.op_le j i = true → Iterable.op_eq i j = true)).
Proof.
  assert (Hcmp : ∀ x y z : Z,
            (x <=? y) = negb (x >? y) ∧ (x >=? y) = negb (x <? y) ∧ (x >? y) = (y <? x)
            ∧ (x <=? y) = (x <? y) || (x =? y) ∧ (x <? x) = false
            ∧ ((x <? y) = true → (y <? z) = true → (x <? z) = true)
            ∧ ((x <=? y) = true → (y <=? x) = true → (x =? y) = true)).
  { intros x y z. rewrite !Z.gtb_ltb, Z.geb_leb.
    destruct (Z.leb_spec x y), (Z.ltb_spec y x), (Z.ltb_spec x y), (Z.eqb_spec x y),
      (Z.leb_spec y x), (Z.ltb_spec x x), (Z.ltb_spec y z), (Z.ltb_spec x z);
      simpl; repeat split; intros; try lia; try reflexivity; try discriminate. }
  split.
  - intros D [p x] [p' y] [p'' z].
    unfold op_ne, op_le, op_ge, op_gt, op_lt, op_eq; simpl.
    destruct (Hcmp x y z) as (? & ? & ? & ? & ? & ? & ?). by repeat split.
  - intros S [a x] [a' y] [a'' z].
    unfold Iterable.op_ne, Iterable.op_le, Iterable.op_ge, Iterable.op_gt, Iterable.op_lt,
      Iterable.op_eq; simpl.
    destruct (Hcmp x y z) as (Hle & ? & ? & Hor & ? & ? & Hanti).
    destruct (Hcmp y x z) as (Hle' & _).
    rewrite <- Hle, <- Hle'. by repeat split.
Qed.

Lemma comparison_operators_consistent_witness :
  let i : IteratorCore Mutable := MkCore (Some 1%positive) 1 in
  let j : IteratorCore Mutable := MkCore (Some 1%positive) 2 in
  let k : IteratorCore Mutable := MkCore (Some 1%positive) 3 in
  op_lt i j = true ∧ op_lt j k = true ∧ op_lt i k = true.
Proof.
  intros i j k. destruct comparison_operators_consistent as [Hcore _].
  destruct (Hcore Mutable i j k) as (_ & _ & _ & _ & _ & _ & Htrans & _).
  split; [reflexivity|]. split; [reflexivity|]. exact (Htrans eq_refl eq_refl).
Defined.

(** X6.  The position of the older iterator is unsigned, so subtracting more
    than the position does not give an iterator before [begin()]: for an
    offset [k] in [[0, 2^63)] the iterator [i - k] is at position [p - k] when
    [k <= p] and at [p - k + 2^64] otherwise, and [i - k <= i] holds exactly
    when [k <= p].  In particular [begin() - 1] and [--begin()] are at
    [2^64 - 1] and compare greater than or equal to every iterator. *)
Theorem legacy_subtraction_wraps (S : cv) (i : Iterable.Iterator S) (k : Z) :
  in_uint64 (Iterable.current_ i) = true → 0 ≤ k ≤ PTRDIFF_MAX →
  let p := Iterable.current_ i in
  Iterable.current_ (Iterable.op_minus i k) = (if k <=? p then p - k else p - k + 2 ^ 64)
  ∧ (Iterable.op_le (Iterable.op_minus i k) i = true ↔ k ≤ p)
  ∧ (p = 0 →
     Iterable.current_ (Iterable.op_minus i 1) = UINT64_MAX
     ∧ Iterable.current_ (snd (Iterable.op_predec i)) = UINT64_MAX
     ∧ ∀ j : Iterable.Iterator S,
         in_uint64 (Iterable.current_ j) = true →
         Iterable.op_ge (Iterable.op_minus i 1) j = true).
Proof.
  intros Hu Hk p. destruct i as [a c]; simpl in *. subst p.
  unfold in_uint64, UINT64_MAX, PTRDIFF_MAX in *.
  apply andb_true_iff in Hu as [Hc0 Hc1]. apply Z.leb_le in Hc0, Hc1.
  assert (Hwrap : ∀ x, 0 ≤ x < 2 ^ 64 →
            to_uint64 (to_uint64 (to_uint64 (c - to_uint64 x)))
            = if x <=? c then c - x else c - x + 2 ^ 64).
  { intros x Hx. rewrite !to_uint64_idemp, to_uint64_minus. unfold to_uint64.
    destruct (Z.leb_spec x c).
    - apply Z.mod_small. lia.
    - rewrite <- (Z_mod_plus_full (c - x) 1 (2 ^ 64)). apply Z.mod_small. lia. }
  unfold Iterable.op_minus, Iterable.ctor, Iterable.op_le, Iterable.op_ge,
    Iterable.op_gt, Iterable.op_lt, Iterable.op_predec; simpl.
  rewrite <- (to_uint64_idemp (c - to_uint64 k)), Hwrap by lia.
  split; [reflexivity|]. split.
  - rewrite negb_true_iff, Z.gtb_ltb, Z.ltb_ge. destruct (Z.leb_spec k c); lia.
  - intros ->. rewrite <- (to_uint64_idemp (0 - to_uint64 1)), Hwrap by lia. simpl.
    split; [reflexivity|]. split; [reflexivity|].
    intros [a' c']; simpl. rewrite andb_true_iff, !Z.leb_le.
    intros [? ?]. rewrite negb_true_iff, Z.ltb_ge. lia.
Qed.

Lemma legacy_subtraction_wraps_witness :
  let i : Iterable.Iterator Mutable := Iterable.MkIterator 1%positive 0 in
  Iterable.current_ (Iterable.op_minus i 1) = UINT64_MAX
  ∧ Iterable.op_lt (Iterable.op_minus i 1) i = false.
Proof.
  intros i.
  assert (Hk : 0 ≤ 1 ≤ PTRDIFF_MAX) by (vm_compute; split; discriminate).
  destruct (legacy_subtraction_wraps Mutable i 1 eq_refl Hk) as (_ & _ & Hzero).
  destruct (Hzero eq_refl) as (Hpos & _ & _).
  split; [exact Hpos | reflexivity].
Defined.

End Distance.

(** ** What every iterator keeps *)
Module Invariant.
Import CxxFacts CoreFacts Detail Run.

(** X7.  The position stays in the range of its type and the host reference
    stays the same, whatever is done to an iterator.  In the synthesized
    iterator every constructor call, every defined navigation operation and
    every entry point of [For] yields an iterator whose position is an [int],
    on the host the operand was on (postfix operators return their operand
    unchanged); in the iterator of the older header every operation yields a
    position in [[0, 2^64)] on the same host. *)
Theorem position_invariant :
  (∀ (D : cv) (p : ptr) (c : Z), valid (ctor (D := D) p c) ∧ valid (default_ctor (D := D)))
  ∧ (∀ (D : cv) (i j : IteratorCore D) (n : Z),
     op_plus i n = Some j ∨ op_minus i n = Some j ∨ op_plus_left n i = Some j →
     valid j ∧ data_ j = data_ i)
  ∧ (∀ (D : cv) (i r i' : IteratorCore D) (n : Z),
     op_plus_assign i n = Some (r, i') ∨ op_minus_assign i n = Some (r, i')
     ∨ op_preinc i = Some (r, i') ∨ op_predec i = Some (r, i') →
     valid i' ∧ data_ i' = data_ i ∧ r = i')
  ∧ (∀ (D : cv) (i r i' : IteratorCore D),
     op_postinc i = Some (r, i') ∨ op_postdec i = Some (r, i') →
     valid i' ∧ data_ i' = data_ i ∧ r = i)
  ∧ (∀ (H : Type) (HC : Host H) (NativeIt : Type) (this : addr) (w w' : world H)
       (x : Iterator Mutable) (y : Iterator Const),
     (For.begin (NativeIt := NativeIt) None this w = Done (inr x) w'
      ∨ For.end_ (NativeIt := NativeIt) None this w = Done (inr x) w' →
      valid x ∧ data_ x = Some this)
     ∧ (For.begin_const (NativeIt := NativeIt) None this w = Done (inr y) w'
        ∨ For.end_const (NativeIt := NativeIt) None this w = Done (inr y) w' →
        valid y ∧ data_ y = Some this))
  ∧ (∀ (S : cv) (i : Iterable.Iterator S) (n : Z),
     Forall (λ j, in_uint64 (Iterable.current_ j) = true
                  ∧ Iterable.self_ j = Iterable.self_ i)
       [Iterable.ctor (Iterable.self_ i) n; Iterable.op_plus i n; Iterable.op_minus i n;
        snd (Iterable.op_plus_assign i n); snd (Iterable.op_minus_assign i n);
        snd (Iterable.op_preinc i); snd (Iterable.op_predec i);
        snd (Iterable.op_postinc i); snd (Iterable.op_postdec i)]).
Proof.
  assert (Hu : ∀ z, in_uint64 (to_uint64 z) = true).
  { intros z. pose proof (to_uint64_range z). unfold in_uint64.
    apply andb_true_iff. rewrite !Z.leb_le. lia. }
  split; [|split; [|split; [|split; [|split]]]].
  - intros D p c. split; [apply ctor_valid | reflexivity].
  - intros D i j n. unfold op_plus_left.
    intros [E|[E|E]];
      [apply op_plus_Some in E as [_ ->] | apply op_minus_Some in E as [_ ->]
      | apply op_plus_Some in E as [_ ->]];
      (split; [apply to_int_in_int | reflexivity]).
  - intros D i r i' n. rewrite op_plus_assign_plus, op_minus_assign_minus.
    unfold op_preinc, op_predec.
    intros [E|[E|[E|E]]].
    + destruct (op_plus i n) as [j|] eqn:Ej; [|discriminate]. injection E as <- <-.
      apply op_plus_Some in Ej as [_ ->]. repeat split. apply to_int_in_int.
    + destruct (op_minus i n) as [j|] eqn:Ej; [|discriminate]. injection E as <- <-.
      apply op_minus_Some in Ej as [_ ->]. repeat split. apply to_int_in_int.
    + destruct (incr i) as [j|] eqn:Ej; [|discriminate]. injection E as <- <-.
      apply incr_Some in Ej as (? & ? & ->). repeat split. by apply in_int_spec.
    + destruct (decr i) as [j|] eqn:Ej; [|discriminate]. injection E as <- <-.
      apply decr_Some in Ej as (? & ? & ->). repeat split. by apply in_int_spec.
  - intros D i r i'. unfold op_postinc, op_postdec. intros [E|E].
    + destruct (incr i) as [j|] eqn:Ej; [|discriminate]. injection E as <- <-.
      apply incr_Some in Ej as (? & ? & ->). repeat split. by apply in_int_spec.
    + destruct (decr i) as [j|] eqn:Ej; [|discriminate]. injection E as <- <-.
      apply decr_Some in Ej as (? & ? & ->). repeat split. by apply in_int_spec.
  - intros H HC NativeIt this w w' x y.
    unfold For.begin, For.end_, For.begin_const, For.end_const, mbind, M_bind.
    split; (intros [E|E];
      [ injection E as <- _
      | destruct (call_Length this w); try discriminate; injection E as <- _ ];
      (split; [apply to_int_in_int | reflexivity])).
  - intros S [a c] n.
    unfold Iterable.op_plus, Iterable.op_minus, Iterable.op_plus_assign,
      Iterable.op_minus_assign, Iterable.op_postinc, Iterable.op_postdec,
      Iterable.op_preinc, Iterable.op_predec, Iterable.ctor; simpl.
    repeat (constructor; [split; [apply Hu | reflexivity]|]). constructor.
Qed.

Lemma position_invariant_witness :
  let i : IteratorCore Mutable := MkCore (Some 1%positive) 0 in
  let j : IteratorCore Mutable := MkCore (Some 1%positive) (- 2 ^ 31) in
  op_plus i (2 ^ 31) = Some j ∧ valid j ∧ data_ j = data_ i.
Proof.
  intros i j. destruct position_invariant as (_ & Hplus & _).
  split; [reflexivity|]. exact (Hplus Mutable i j (2 ^ 31) (or_introl eq_refl)).
Defined.

End Invariant.

(** ** Subscript and the other accessing members *)
Module Subscript.
Import CxxFacts CoreFacts Detail Run.

Section Members.
Context {H : Type} `{Host H}.

(** X8.  Subscripts compose with offsets and reduce to a dereference, in both
    iterator types: [(i + a)[b]] is [i[a + b]] (in the synthesized iterator
    when [i + a] fits [int]), and [i[0]] is [*i].  In the synthesized iterator
    [i.operator->()] and the pointer conversion of [ContiguousImpl] designate
    the element that [*i] designates, after the same single call into the
    host. *)
Theorem subscript_composes :
  (∀ (D : cv) (i j : IteratorCore D) (a b : Z) (w : world H),
     in_int (current_ i + a) = true → op_plus i a = Some j →
     op_subscript j b w = op_subscript i (a + b) w)
  ∧ (∀ (D : cv) (i : IteratorCore D) (w : world H),
     valid i → op_subscript i 0 w = op_deref i w)
  ∧ (∀ (D : cv) (i : IteratorCore D) (w : world H),
     op_arrow i w = op_deref i w ∧ op_to_pointer i w = op_deref i w)
  ∧ (∀ (S : cv) (i : Iterable.Iterator S) (a b : Z) (w : world H),
     Iterable.op_subscript (Iterable.op_plus i a) b w = Iterable.op_subscript i (a + b) w)
  ∧ (∀ (S : cv) (i : Iterable.Iterator S) (w : world H),
     in_uint64 (Iterable.current_ i) = true →
     Iterable.op_subscript i 0 w = Iterable.op_deref i w).
Proof.
  split; [|split; [|split; [|split]]].
  - intros D i j a b w Ha Hj. rewrite (op_plus_exact i a Ha) in Hj. injection Hj as <-.
    unfold op_subscript, op_plus; simpl. by rewrite Z.add_assoc.
  - intros D [p c] w Hv. unfold op_subscript.
    rewrite op_plus_exact by (simpl; by rewrite Z.add_0_r).
    simpl. by rewrite Z.add_0_r.
  - intros D i w. split; reflexivity.
  - intros S [s c] a b w.
    unfold Iterable.op_subscript, Iterable.op_plus, Iterable.ctor; simpl.
    rewrite !to_uint64_idemp, !to_uint64_plus.
    unfold to_uint64 at 2. unfold to_uint64. rewrite Zplus_mod_idemp_l.
    by rewrite Z.add_assoc.
  - intros S [s c] w Hu. unfold Iterable.op_subscript, Iterable.op_deref; simpl in *.
    change (to_uint64 0) with 0. by rewrite Z.add_0_r, (to_uint64_id _ Hu).
Qed.

End Members.

Lemma subscript_composes_witness :
  let w : world Hosts.vec := MkWorld {[1%positive := [10; 20; 30; 40]]} [] in
  let i : IteratorCore Mutable := MkCore (Some 1%positive) 1 in
  let j : IteratorCore Mutable := MkCore (Some 1%positive) 2 in
  op_plus i 1 = Some j ∧ op_subscript j 1 w = op_subscript i 2 w
  ∧ op_subscript i 0 w = op_deref i w.
Proof.
  intros w i j. destruct (subscript_composes (H := Hosts.vec)) as (Hadd & Hzero & _).
  split; [reflexivity|]. split.
  - exact (Hadd Mutable i j 1 1 w eq_refl eq_refl).
  - exact (Hzero Mutable i w eq_refl).
Defined.

End Subscript.

(** ** The entry points at the edges of the position's range *)
Module Edges.
Import CxxFacts CoreFacts Detail Run.

Section Hosts.
Context {H : Type} `{Host H} {NativeIt : Type}.

(** X9.  In the older header the position is 64 bits wide, so the entry points
    and the addressing are exact over the whole range: for a host object of
    any length [n < 2^64], [begin()] is at position 0 and leaves the state
    alone, [end()] is at position [n] after one call of [GetLength()], and for
    every offset [k] in [[0, 2^63)], a [std::ptrdiff_t], [begin() + k] is at
    position [k] and dereferencing it is one call of the host's [operator[]]
    with index [k], whose element it returns as a modifiable lvalue. *)
Theorem legacy_addressing (this : addr) (d : H) (w : world H) :
  heap w !! this = Some d → 0 ≤ Length d ≤ UINT64_MAX →
  Iterable.begin this w = Done (Iterable.MkIterator this 0) w
  ∧ Iterable.end_ this w
    = Done (Iterable.MkIterator this (Length d))
           (MkWorld (heap w) (calls w ++ [CallLength this]))
  ∧ (Iterable.op_eq (S := Mutable) (Iterable.MkIterator this 0)
       (Iterable.MkIterator this (Length d)) = true ↔ Length d = 0)
  ∧ ∀ k : Z,
      0 ≤ k ≤ PTRDIFF_MAX →
      Iterable.op_plus (S := Mutable) (Iterable.MkIterator this 0) k
      = Iterable.MkIterator this k
      ∧ Iterable.op_deref (S := Mutable) (Iterable.MkIterator this k) w
        = (s ← call_subscript Mutable this k; mret (MkLvalue Mutable this s)) w.
Proof.
  intros E Hn. split; [reflexivity|]. split.
  { unfold Iterable.end_, Iterable.construct; simpl.
    rewrite (bind_Done _ _ _ _ _ (call_Length_Done this d w E)).
    unfold Iterable.ctor. rewrite to_uint64_id; [reflexivity|].
    unfold in_uint64. apply andb_true_iff. rewrite !Z.leb_le. lia. }
  split; [unfold Iterable.op_eq; cbn [Iterable.current_]; rewrite Z.eqb_eq; lia|].
  intros k Hk. split; [|reflexivity].
  unfold Iterable.op_plus, Iterable.ctor; cbn [Iterable.current_ Iterable.self_]. f_equal.
  rewrite !to_uint64_idemp, to_uint64_plus, Z.add_0_l. apply to_uint64_id.
  unfold in_uint64, UINT64_MAX, PTRDIFF_MAX in *.
  apply andb_true_iff. rewrite !Z.leb_le. lia.
Qed.

Lemma to_int_zero (z : Z) : to_int z = 0 ↔ z mod 2 ^ 32 = 0.
Proof.
  pose proof (to_int_congr z) as Hc. split.
  - intros E. by rewrite E in Hc.
  - intros E. rewrite E in Hc.
    pose proof (proj1 (in_int_spec _) (to_int_in_int z)) as Hr.
    unfold INT_MIN, INT_MAX in Hr.
    apply Z.mod_divide in Hc; [|lia]. destruct Hc as [q Hq]. lia.
Qed.

(** X10.  A host is iterated as empty exactly when its length is a multiple
    of [2^32]: [end()] is at the length converted to [int], so
    [begin() == end()] holds if and only if [Length() mod 2^32 = 0], and on
    such a host the range-based [for] ends at once, having visited nothing,
    after its one call of [Length()]. *)
Theorem empty_to_the_loop (this : addr) (d : H) (w : world H) :
  heap w !! this = Some d →
  let e : Iterator Mutable := MkCore (Some this) (to_int (Length d)) in
  let w1 := MkWorld (heap w) (calls w ++ [CallLength this]) in
  For.end_ (NativeIt := NativeIt) None this w = Done (inr e) w1
  ∧ (op_eq (MkCore (Some this) 0) e = true ↔ Length d mod 2 ^ 32 = 0)
  ∧ (Length d mod 2 ^ 32 = 0 →
     ∀ (ne : NativeIt → NativeIt → bool) (inc : NativeIt → M H NativeIt)
       (deref : NativeIt → M H lvalue) (fuel : nat),
       for_host None ne inc deref fuel this w = Done (Some []) w1).
Proof.
  intros E e w1.
  destruct (EntryPoints.end_position (NativeIt := NativeIt) this d w E) as [He _].
  split; [exact He|].
  assert (Heq : op_eq (MkCore (Some this) 0) e = true ↔ Length d mod 2 ^ 32 = 0).
  { unfold op_eq, e; cbn [current_]. rewrite Z.eqb_eq, <- to_int_zero.
    split; intros; by symmetry. }
  split; [exact Heq|].
  intros Hz ne inc deref fuel. unfold for_host.
  unfold mbind at 1, M_bind at 1. unfold For.begin at 1. unfold mret at 1, M_ret at 1.
  unfold mbind at 1, M_bind at 1. rewrite He.
  unfold synthesized_loop. apply Delegation.range_loop_stop.
  apply Heq in Hz. unfold op_ne, ctor. unfold op_eq, e in Hz. cbn [current_] in *.
  change (to_int 0) with 0. by rewrite Hz.
Qed.

End Hosts.

Lemma legacy_addressing_witness :
  let t := Hosts.MkTable (2 ^ 31 + 1) ∅ in
  let w : world Hosts.table := MkWorld {[1%positive := t]} [] in
  Iterable.op_plus (S := Mutable) (Iterable.MkIterator 1%positive 0) (2 ^ 31)
  = Iterable.MkIterator 1%positive (2 ^ 31)
  ∧ value_of (Iterable.op_deref (S := Mutable) (Iterable.MkIterator 1%positive (2 ^ 31)) w)
    = Done (MkLvalue Mutable 1%positive (2 ^ 31)) tt.
Proof.
  intros t w.
  assert (E : heap w !! 1%positive = Some t) by reflexivity.
  assert (Hn : 0 ≤ Length t ≤ UINT64_MAX) by (vm_compute; split; discriminate).
  destruct (legacy_addressing 1%positive t w E Hn) as (_ & _ & _ & Hk).
  assert (Hr : 0 ≤ 2 ^ 31 ≤ PTRDIFF_MAX) by (vm_compute; split; discriminate).
  destruct (Hk (2 ^ 31) Hr) as [Hplus Hderef].
  split; [exact Hplus|]. exact (eq_trans (f_equal value_of Hderef) eq_refl).
Defined.

Lemma empty_to_the_loop_witness :
  let t := Hosts.MkTable (2 ^ 32) ∅ in
  let w : world Hosts.table := MkWorld {[1%positive := t]} [] in
  Length t mod 2 ^ 32 = 0
  ∧ value_of (for_host (NativeIt := Empty_set) None (λ _ _, false) (λ x, mret x)
                (λ x, match x with end) 0 1%positive w)
    = Done (Some []) tt.
Proof.
  intros t w.
  assert (E : heap w !! 1%positive = Some t) by reflexivity.
  destruct (empty_to_the_loop (NativeIt := Empty_set) 1%positive t w E) as (_ & _ & Hloop).
  split; [reflexivity|].
  rewrite (Hloop eq_refl (λ _ _, false) (λ x, mret x) (λ x, match x with end) 0%nat).
  reflexivity.
Defined.

End Edges.

(** ** The range-based [for] over a host, for every host class *)
Module Traversal.
Import CxxFacts CoreFacts Detail Run.

Section AnyHost.
Context {H : Type} `{Host H} {NativeIt : Type}.

(** What the loop needs of the host class, as an invariant [Inv] of its
    objects: the length stays [n], and [operator[]] is defined at every index
    of [[0, n)], on both paths, and keeps the invariant (it may still change
    the object). *)
Variable Inv : H → Prop.
Variable n : Z.
Hypothesis Inv_Length : ∀ d : H, Inv d → Length d = n.
Hypothesis Inv_subscript :
  ∀ (q : cv) (d : H) (k : Z), Inv d → 0 ≤ k < n →
    ∃ (s : slot) (d' : H), subscript q k d = Some (s, d') ∧ Inv d'.

Variable n_ne : NativeIt → NativeIt → bool.
Variable n_inc : NativeIt → M H NativeIt.
Variable n_deref : NativeIt → M H lvalue.

Lemma after_nothing (this : addr) (d : H) (w : world H) :
  heap w !! this = Some d → after this d [] w = w.
Proof.
  intros E. unfold after. rewrite (insert_id _ _ _ E), app_nil_r. by destruct w.
Qed.

Lemma after_after (this : addr) (d1 d2 : H) (l1 l2 : list call) (w : world H) :
  after this d2 l2 (after this d1 l1 w) = after this d2 (l1 ++ l2) w.
Proof. unfold after; simpl. by rewrite insert_insert_eq, app_assoc. Qed.

Lemma synthesized_loop_visits (D : cv) (this : addr) (len : nat) :
  ∀ (p : Z) (fuel : nat) (w : world H) (d : H),
    heap w !! this = Some d → Inv d → 0 ≤ p → p + Z.of_nat len = n → n ≤ INT_MAX →
    (len ≤ fuel)%nat →
    ∃ (refs : list lvalue) (d' : H),
      synthesized_loop (D := D) fuel (MkCore (Some this) p) (MkCore (Some this) n) w
      = Done (Some refs)
             (after this d' (CallSubscript this D <$> seqZ p (Z.of_nat len)) w)
      ∧ Inv d' ∧ length refs = len
      ∧ Forall (λ r, lv_obj r = this ∧ lv_const r = D) refs.
Proof.
  induction len as [|len IH]; intros p fuel w d E Hd Hp Hlen Hmax Hfuel.
  - exists [], d. unfold synthesized_loop. rewrite Delegation.range_loop_stop.
    + rewrite seqZ_nil by lia. simpl. rewrite (after_nothing _ _ _ E). auto.
    + unfold op_ne; cbn [current_]. rewrite negb_false_iff. apply Z.eqb_eq. lia.
  - destruct fuel as [|fuel]; [lia|].
    destruct (Inv_subscript D d p Hd) as (s & d1 & Hs & Hd1); [lia|].
    set (w1 := after this d1 [CallSubscript this D p] w).
    assert (E1 : heap w1 !! this = Some d1) by apply lookup_insert_eq.
    destruct (IH (p + 1) fuel w1 d1 E1 Hd1) as (refs & d' & Hloop & Hd' & Hlength & Hall);
      try lia.
    exists (MkLvalue D this s :: refs), d'. unfold synthesized_loop in *.
    erewrite (Delegation.range_loop_step _ _ _ fuel _ (MkCore (Some this) (p + 1)) _
                (MkLvalue D this s) _ w w1 w1 _); first last.
    + exact Hloop.
    + unfold op_preinc, incr; cbn [current_ data_]. unfold int_expr.
      assert (Hin : in_int (p + 1) = true).
      { apply in_int_spec. unfold INT_MIN. lia. }
      by rewrite Hin.
    + rewrite Addressing.op_deref_call.
      unfold mbind, M_bind, call_subscript. by rewrite E, Hs.
    + unfold op_ne; cbn [current_]. rewrite negb_true_iff. apply Z.eqb_neq. lia.
    + unfold w1. rewrite after_after, (seqZ_cons p) by lia.
      replace (Z.pred (Z.of_nat (S len))) with (Z.of_nat len) by lia.
      replace (Z.succ p) with (p + 1) by lia.
      split; [reflexivity|]. split; [exact Hd'|]. split; [simpl; by rewrite Hlength|].
      constructor; [split; reflexivity | exact Hall].
Qed.

Lemma legacy_loop_visits (this : addr) (len : nat) :
  ∀ (p : Z) (fuel : nat) (w : world H) (d : H),
    heap w !! this = Some d → Inv d → 0 ≤ p → p + Z.of_nat len = n → n ≤ UINT64_MAX →
    (len ≤ fuel)%nat →
    ∃ (refs : list lvalue) (d' : H),
      legacy_loop (S := Mutable) fuel (Iterable.MkIterator this p)
        (Iterable.MkIterator this n) w
      = Done (Some refs)
             (after this d' (CallSubscript this Mutable <$> seqZ p (Z.of_nat len)) w)
      ∧ Inv d' ∧ length refs = len
      ∧ Forall (λ r, lv_obj r = this ∧ lv_const r = Mutable) refs.
Proof.
  induction len as [|len IH]; intros p fuel w d E Hd Hp Hlen Hmax Hfuel.
  - exists [], d. unfold legacy_loop. rewrite Delegation.range_loop_stop.
    + rewrite seqZ_nil by lia. simpl. rewrite (after_nothing _ _ _ E). auto.
    + unfold Iterable.op_ne, Iterable.op_eq; cbn [Iterable.current_].
      rewrite negb_false_iff. apply Z.eqb_eq. lia.
  - destruct fuel as [|fuel]; [lia|].
    destruct (Inv_subscript Mutable d p Hd) as (s & d1 & Hs & Hd1); [lia|].
    set (w1 := after this d1 [CallSubscript this Mutable p] w).
    assert (E1 : heap w1 !! this = Some d1) by apply lookup_insert_eq.
    destruct (IH (p + 1) fuel w1 d1 E1 Hd1) as (refs & d' & Hloop & Hd' & Hlength & Hall);
      try lia.
    exists (MkLvalue Mutable this s :: refs), d'. unfold legacy_loop in *.
    erewrite (Delegation.range_loop_step _ _ _ fuel _ (Iterable.MkIterator this (p + 1)) _
                (MkLvalue Mutable this s) _ w w1 w1 _); first last.
    + exact Hloop.
    + unfold Iterable.op_preinc; cbn [Iterable.current_ Iterable.self_ fst].
      rewrite to_uint64_id; [reflexivity|].
      unfold in_uint64. apply andb_true_iff. rewrite !Z.leb_le. lia.
    + unfold Iterable.op_deref, mbind, M_bind, call_subscript;
        cbn [Iterable.current_ Iterable.self_]. by rewrite E, Hs.
    + unfold Iterable.op_ne, Iterable.op_eq; cbn [Iterable.current_].
      rewrite negb_true_iff. apply Z.eqb_neq. lia.
    + unfold w1. rewrite after_after, (seqZ_cons p) by lia.
      replace (Z.pred (Z.of_nat (S len))) with (Z.of_nat len) by lia.
      replace (Z.succ p) with (p + 1) by lia.
      split; [reflexivity|]. split; [exact Hd'|]. split; [simpl; by rewrite Hlength|].
      constructor; [split; reflexivity | exact Hall].
Qed.

(** X11.  The range-based [for] over a host of at most [INT_MAX] elements
    whose [operator[]] is defined on [[0, n)] completes, whatever the host
    class: it calls [Length()] once and then [operator[]] with the indices
    0, 1, ..., [n - 1], each once and in this order, on the path of the view
    (mutable or constant); it visits [n] elements, all of the host object and
    of the constness of the view; and it changes no other object. *)
Theorem range_for_visits_every_index (this : addr) (d : H) (w : world H) (fuel : nat) :
  heap w !! this = Some d → Inv d → 0 ≤ n ≤ INT_MAX → (Z.to_nat n ≤ fuel)%nat →
  (∃ (refs : list lvalue) (d' : H),
     for_host None n_ne n_inc n_deref fuel this w
     = Done (Some refs)
            (after this d'
               (CallLength this :: (CallSubscript this Mutable <$> seqZ 0 n)) w)
     ∧ Inv d' ∧ Z.of_nat (length refs) = n
     ∧ Forall (λ r, lv_obj r = this ∧ lv_const r = Mutable) refs)
  ∧ (∃ (refs : list lvalue) (d' : H),
     for_const_host None n_ne n_inc n_deref fuel this w
     = Done (Some refs)
            (after this d'
               (CallLength this :: (CallSubscript this Const <$> seqZ 0 n)) w)
     ∧ Inv d' ∧ Z.of_nat (length refs) = n
     ∧ Forall (λ r, lv_obj r = this ∧ lv_const r = Const) refs).
Proof.
  intros E Hd Hn Hfuel.
  set (w1 := after this d [CallLength this] w).
  assert (E1 : heap w1 !! this = Some d) by apply lookup_insert_eq.
  assert (Hw1 : MkWorld (heap w) (calls w ++ [CallLength this]) = w1).
  { unfold w1, after. by rewrite (insert_id _ _ _ E). }
  assert (Hend : to_int (Length d) = n).
  { rewrite (Inv_Length d Hd). apply to_int_id, in_int_spec. unfold INT_MIN. lia. }
  assert (Hloop : ∀ D : cv,
            ∃ (refs : list lvalue) (d' : H),
              synthesized_loop (D := D) fuel (MkCore (Some this) 0) (MkCore (Some this) n) w1
              = Done (Some refs)
                  (after this d' (CallLength this :: (CallSubscript this D <$> seqZ 0 n)) w)
              ∧ Inv d' ∧ Z.of_nat (length refs) = n
              ∧ Forall (λ r, lv_obj r = this ∧ lv_const r = D) refs).
  { intros D.
    destruct (synthesized_loop_visits D this (Z.to_nat n) 0 fuel w1 d E1 Hd)
      as (refs & d' & Hrun & Hd' & Hlength & Hall); try lia.
    exists refs, d'. rewrite Hrun. unfold w1. rewrite after_after, Z2Nat.id by lia.
    split; [reflexivity|]. split; [exact Hd'|]. split; [lia | exact Hall]. }
  split.
  - destruct (Hloop Mutable) as (refs & d' & Hrun & Hrest). exists refs, d'.
    split; [|exact Hrest]. rewrite <- Hrun.
    unfold for_host, For.begin, For.end_.
    unfold mbind at 1, M_bind at 1. unfold mret at 1, M_ret at 1.
    unfold mbind at 1, M_bind at 1.
    rewrite (bind_Done _ _ _ _ _ (call_Length_Done this d w E)).
    unfold mret at 1, M_ret at 1. unfold ctor. rewrite Hend, Hw1. reflexivity.
  - destruct (Hloop Const) as (refs & d' & Hrun & Hrest). exists refs, d'.
    split; [|exact Hrest]. rewrite <- Hrun.
    unfold for_const_host, For.begin_const, For.end_const.
    unfold mbind at 1, M_bind at 1. unfold mret at 1, M_ret at 1.
    unfold mbind at 1, M_bind at 1.
    rewrite (bind_Done _ _ _ _ _ (call_Length_Done this d w E)).
    unfold mret at 1, M_ret at 1. unfold ctor. rewrite Hend, Hw1. reflexivity.
Qed.

(** X12.  The same for a host that derives from [Iterable<D>] of the older
    header, now for every length below [2^64]: the loop calls [GetLength()]
    once and then [operator[]] on the mutable path with the indices 0, 1, ...,
    [n - 1], each once and in this order, and visits [n] modifiable elements of
    the host object. *)
Theorem legacy_range_for_visits_every_index (this : addr) (d : H) (w : world H)
    (fuel : nat) :
  heap w !! this = Some d → Inv d → 0 ≤ n ≤ UINT64_MAX → (Z.to_nat n ≤ fuel)%nat →
  ∃ (refs : list lvalue) (d' : H),
    for_legacy_host fuel this w
    = Done (Some refs)
           (after this d'
              (CallLength this :: (CallSubscript this Mutable <$> seqZ 0 n)) w)
    ∧ Inv d' ∧ Z.of_nat (length refs) = n
    ∧ Forall (λ r, lv_obj r = this ∧ lv_const r = Mutable) refs.
Proof.
  intros E Hd Hn Hfuel.
  set (w1 := after this d [CallLength this] w).
  assert (E1 : heap w1 !! this = Some d) by apply lookup_insert_eq.
  assert (Hw1 : MkWorld (heap w) (calls w ++ [CallLength this]) = w1).
  { unfold w1, after. by rewrite (insert_id _ _ _ E). }
  assert (Hend : to_uint64 (Length d) = n).
  { rewrite (Inv_Length d Hd). apply to_uint64_id. unfold in_uint64.
    apply andb_true_iff. rewrite !Z.leb_le. lia. }
  destruct (legacy_loop_visits this (Z.to_nat n) 0 fuel w1 d E1 Hd)
    as (refs & d' & Hrun & Hd' & Hlength & Hall); try lia.
  exists refs, d'. split; [|split; [exact Hd'|split; [lia | exact Hall]]].
  unfold for_legacy_host, Iterable.begin, Iterable.end_, Iterable.construct.
  cbn [Iterable.binds is_const orb negb].
  unfold mbind at 1, M_bind at 1. unfold mret at 1, M_ret at 1.
  unfold mbind at 1, M_bind at 1.
  rewrite (bind_Done _ _ _ _ _ (call_Length_Done this d w E)).
  unfold mret at 1, M_ret at 1. unfold Iterable.ctor. rewrite Hend, Hw1.
  change (to_uint64 0) with 0. rewrite Hrun.
  unfold w1. by rewrite after_after, Z2Nat.id by lia.
Qed.

End AnyHost.

Lemma scenario_host_invariant (items : Hosts.vec) :
  (∀ d : Hosts.vec, d = items → Length d = Z.of_nat (length items))
  ∧ (∀ (q : cv) (d : Hosts.vec) (k : Z),
       d = items → 0 ≤ k < Z.of_nat (length items) →
       ∃ (s : slot) (d' : Hosts.vec), subscript q k d = Some (s, d') ∧ d' = items).
Proof.
  split; [by intros d ->|]. intros q d k -> Hk. exists k, items.
  split; [by apply Delegation.vec_subscript_in_range | reflexivity].
Qed.

Lemma range_for_visits_every_index_witness :
  let items : Hosts.vec := [10; 20; 30; 40] in
  let w := Hosts.alone items in
  ∃ refs : list lvalue,
    value_of (for_host None Hosts.buffer_ne Hosts.buffer_inc Hosts.buffer_deref
                4 1%positive w) = Done (Some refs) tt
    ∧ length refs = 4%nat.
Proof.
  intros items w. destruct (scenario_host_invariant items) as [Hlen Hsub].
  assert (E : heap w !! 1%positive = Some items) by reflexivity.
  assert (Hn : 0 ≤ Z.of_nat (length items) ≤ INT_MAX) by (vm_compute; split; discriminate).
  destruct (range_for_visits_every_index (λ d, d = items) (Z.of_nat (length items))
              Hlen Hsub Hosts.buffer_ne Hosts.buffer_inc Hosts.buffer_deref
              1%positive items w 4 E eq_refl Hn (le_n 4))
    as [(refs & d' & Hrun & _ & Hlength & _) _].
  exists refs. split; [by rewrite Hrun|]. apply Nat2Z.inj. exact Hlength.
Defined.

Lemma legacy_range_for_visits_every_index_witness :
  let items : Hosts.vec := [10; 20; 30; 40] in
  let w := Hosts.alone items in
  ∃ refs : list lvalue,
    value_of (for_legacy_host 4 1%positive w) = Done (Some refs) tt
    ∧ length refs = 4%nat.
Proof.
  intros items w. destruct (scenario_host_invariant items) as [Hlen Hsub].
  assert (E : heap w !! 1%positive = Some items) by reflexivity.
  assert (Hn : 0 ≤ Z.of_nat (length items) ≤ UINT64_MAX)
    by (vm_compute; split; discriminate).
  destruct (legacy_range_for_visits_every_index (λ d, d = items)
              (Z.of_nat (length items)) Hlen Hsub 1%positive items w 4 E eq_refl Hn
              (le_n 4))
    as (refs & d' & Hrun & _ & Hlength & _).
  exists refs. split; [by rewrite Hrun|]. apply Nat2Z.inj. exact Hlength.
Defined.

End Traversal.

(** ** The type aliases and the selection of the implementation *)
Module CompatFacts.
Import Detail Compat.

(** X13.  The aliases [reference] and [pointer] that the iterator publishes do
    not follow the constness of the container: they are built on the decayed
    [Stored<D>], while the accessing members return [HandledReturn<D>].  So
    the element that [*i], [i->], [i[k]] or the pointer conversion yields has
    the constness of the published [reference] and [pointer] exactly when the
    container type is not const; an iterator over a const container publishes
    a non-const [reference] and yields const elements. *)
Theorem published_reference_constness
    (H : Type) (HC : Host H) (ITERABLE_CPP_20 : bool) (D : cv) (T : Tag)
    (i : IteratorCore D) (k : Z) (w w' : world H) (r : lvalue) :
  op_deref i w = Done r w' ∨ op_arrow i w = Done r w' ∨ op_subscript i k w = Done r w'
  ∨ op_to_pointer i w = Done r w' →
  let published := IteratorCompat_of ITERABLE_CPP_20 D T in
  lv_const r = HandledReturn D
  ∧ value_type published = Mutable
  ∧ (lv_const r = reference published ↔ D = Mutable)
  ∧ (lv_const r = pointer published ↔ D = Mutable).
Proof.
  intros Hr published.
  pose proof (Constness.element_constness D i k w w' r Hr) as Hc.
  rewrite Hc, Addressing.HandledReturn_id. simpl. unfold Stored_cv.
  repeat split; auto.
Qed.

Lemma published_reference_constness_witness :
  let w : world Hosts.vec := Hosts.alone [1; 2; 3] in
  let i : IteratorCore Const := MkCore (Some 1%positive) 1 in
  let r := MkLvalue Const 1%positive 1 in
  value_of (op_deref i w) = Done r tt
  ∧ lv_const r = Const ∧ reference (IteratorCompat_of true Const Default) = Mutable.
Proof.
  intros w i r.
  assert (Ed : op_deref i w
               = Done r (MkWorld (<[1%positive := [1; 2; 3]]> (heap w))
                           [CallSubscript 1%positive Const 1])) by reflexivity.
  destruct (published_reference_constness Hosts.vec Hosts.vec_host true Const Default
              i 0 w _ r (or_introl Ed)) as (Hc & _ & _ & _).
  split; [reflexivity|]. split; [exact Hc | reflexivity].
Defined.

(** X14.  The tag selects category and implementation coherently: the
    iterator publishes [std::contiguous_iterator_tag] exactly when its
    implementation is [ContiguousImpl], the one with the conversion to a raw
    pointer, which is exactly when [ITERABLE_CPP_20] holds and the tag is
    [Contiguous].  Without [ITERABLE_CPP_20] the tag [Contiguous] selects what
    [Default] selects: [IteratorCore] and [std::random_access_iterator_tag]. *)
Theorem tag_selection (ITERABLE_CPP_20 : bool) (D : cv) (T : Tag) :
  (iterator_category (IteratorCompat_of ITERABLE_CPP_20 D T) = contiguous_iterator_tag
   ↔ has_pointer_conversion (SelectImpl ITERABLE_CPP_20 T) = true)
  ∧ (has_pointer_conversion (SelectImpl ITERABLE_CPP_20 T) = true
     ↔ ITERABLE_CPP_20 = true ∧ T = Contiguous)
  ∧ SelectImpl false T = SelectImpl false Default
  ∧ ConvertTag false T = ConvertTag false Default
  ∧ SelectImpl ITERABLE_CPP_20 Default = UseIteratorCore
  ∧ ConvertTag ITERABLE_CPP_20 Default = random_access_iterator_tag.
Proof.
  destruct ITERABLE_CPP_20, T; simpl; unfold ConvertTag; simpl;
    repeat split; intros; try discriminate; try reflexivity;
    match goal with
    | Hx : _ ∧ _ |- _ => destruct Hx; discriminate
    end.
Qed.

End CompatFacts.

(** ** The shortcut against synthesized iteration *)
Module Shortcut.
Import CxxFacts CoreFacts Detail Run.

Section Member.
Context {H : Type} `{Host H} {NativeIt : Type}.
Variable data_ : PubContainer H NativeIt.
Variable n_ne : NativeIt → NativeIt → bool.
Variable n_inc : NativeIt → M H NativeIt.
Variable n_deref : NativeIt → M H lvalue.



End Member.



End Shortcut.
